(** * conq: a chunked FIFO queue guarded by one mutex (src/conq.go)

    The Go package stores the queued items in a slice of slices
    ([items [][]interface{}]) together with a read position ([ry], [rx]),
    a write chunk index ([w]) and an incrementally maintained length
    ([len]).  This development embeds the methods of [Queue] as Rocq
    functions over an explicit state record and proves the properties the
    specification states about them.

    Modelling conventions.
    - A Go [int] is a [Z].  Every counter of the queue is bounded by the
      number of stored items, and a Go slice cannot hold 2^63 items, so no
      wrap-around is written out.
    - A Go slice is its visible elements together with its capacity; the
      code never reslices beyond the length, so stale cells of the backing
      array are not observable and are not modelled.
    - [interface{}] is [option V]: the nil interface or a boxed value.
    - Run-time panics (index out of range, [make] with a capacity below
      the length, unlocking an unlocked mutex) are the outcome [Panic]; a
      [Lock] on a held mutex in a sequential run is [Blocked].
    - [make] refuses a capacity above a limit of the platform ([max_cap]);
      below it memory is unbounded: an allocation never fails for lack of
      space.
    - A panic ends the run: [Panic] carries no state, and what a caller
      that recovers would find (the mutex still held when [Enqueue]
      panics before its [Unlock]) is not modelled. *)

From stdpp Require Import base tactics option list numbers.
From Stdlib Require Import ZArith Lia.

Local Open Scope Z_scope.

(** ** Outcomes of a call *)

Inductive outcome (T : Type) : Type :=
| Ret (t : T)   (* the call returns *)
| Panic         (* a run-time panic unwinds the goroutine *)
| Blocked       (* the goroutine waits on the mutex and nobody releases it *)
| Pending.      (* a polling loop is still running when the schedule ends *)

Arguments Ret {T} t.
Arguments Panic {T}.
Arguments Blocked {T}.
Arguments Pending {T}.

#[global] Instance outcome_ret : MRet outcome := fun _ t => Ret t.

#[global] Instance outcome_bind : MBind outcome := fun _ _ k c =>
  match c with
  | Ret t => k t
  | Panic => Panic
  | Blocked => Blocked
  | Pending => Pending
  end.

#[global] Instance outcome_fmap : FMap outcome := fun _ _ f c =>
  match c with
  | Ret t => Ret (f t)
  | Panic => Panic
  | Blocked => Blocked
  | Pending => Pending
  end.

(** ** Go slices *)

Record slice (T : Type) : Type := Slice { elems : list T; cap : Z }.

Arguments Slice {T} elems cap.
Arguments elems {T} s.
Arguments cap {T} s.

(** A sample growth policy for [append] (doubling, as the Go runtime does
    for short slices); the development is parametric in the policy and
    uses this one only to evaluate concrete runs. *)
Definition doubling (et : Type) (oldcap newlen : Z) : Z :=
  if 2 * oldcap <? newlen then newlen else 2 * oldcap.

(** A sample limit for [make]: on 64-bit Linux the runtime allocates at
    most 2^48 bytes and an [interface{}] takes 16, so no slice of them
    has a capacity above 2^44.  Used only to evaluate concrete runs. *)
Definition limit44 (et : Type) : Z := 2 ^ 44.

Section Conq.

(** The dynamic values stored behind [interface{}]. *)
Variable V : Type.

(** [growslice et oldcap newlen] is the capacity the runtime picks when
    [append] outgrows a slice of element type [et]; the package does not
    define it. *)
Variable growslice : Type -> Z -> Z -> Z.

(** [max_cap et] is the largest capacity [make] accepts for a slice of
    element type [et] (the runtime's allocation limit divided by the size
    of an element); above it [make] panics with "cap out of range".  The
    package does not define it. *)
Variable max_cap : Type -> Z.

Definition iface : Type := option V.
Definition nil : iface := None.

Section Slices.
Context {T : Type}.

(** The zero value of a slice type. *)
Definition nil_slice : slice T := Slice [] 0.

(** [len(s)] *)
Definition slen (s : slice T) : Z := Z.of_nat (length (elems s)).

(** [s[i]], with the bounds check *)
Definition index (s : slice T) (i : Z) : outcome T :=
  if (0 <=? i) && (i <? slen s) then
    match elems s !! Z.to_nat i with
    | Some x => Ret x
    | None => Panic
    end
  else Panic.

(** [s[i] = v], with the bounds check *)
Definition store (s : slice T) (i : Z) (v : T) : outcome (slice T) :=
  if (0 <=? i) && (i <? slen s) then
    Ret (Slice (<[Z.to_nat i := v]> (elems s)) (cap s))
  else Panic.

(** [s[:0]]: no elements, same storage *)
Definition truncate (s : slice T) : slice T := Slice [] (cap s).

(** [append(s, v)] *)
Definition append (s : slice T) (v : T) : slice T :=
  Slice (elems s ++ [v])
        (if slen s <? cap s then cap s else growslice T (cap s) (slen s + 1)).

(** [s := make([]T, 1, capacity); s[0] = v].  [make] panics when the
    capacity is below the length 1 and when it is above what the runtime
    can allocate. *)
Definition make1 (capacity : Z) (v : T) : outcome (slice T) :=
  if (capacity <? 1) || (max_cap T <? capacity) then Panic
  else Ret (Slice [v] capacity).
End Slices.

(** ** The queue *)

Record Queue : Type := mkQueue {
  Capacity : Z;                  (* soft cap for the chunks *)
  items : slice (slice iface);
  len : Z;
  mut : bool;                    (* sync.Mutex: true when held *)
  rx : Z;
  ry : Z;
  w : Z
}.

(** [&conq.Queue{Capacity: c}] *)
Definition New (c : Z) : Queue := mkQueue c nil_slice 0 false 0 0 0.

Definition set_Capacity (q : Queue) (v : Z) : Queue :=
  mkQueue v (items q) (len q) (mut q) (rx q) (ry q) (w q).
Definition set_items (q : Queue) (v : slice (slice iface)) : Queue :=
  mkQueue (Capacity q) v (len q) (mut q) (rx q) (ry q) (w q).
Definition set_len (q : Queue) (v : Z) : Queue :=
  mkQueue (Capacity q) (items q) v (mut q) (rx q) (ry q) (w q).
Definition set_mut (q : Queue) (v : bool) : Queue :=
  mkQueue (Capacity q) (items q) (len q) v (rx q) (ry q) (w q).
Definition set_rx (q : Queue) (v : Z) : Queue :=
  mkQueue (Capacity q) (items q) (len q) (mut q) v (ry q) (w q).
Definition set_ry (q : Queue) (v : Z) : Queue :=
  mkQueue (Capacity q) (items q) (len q) (mut q) (rx q) v (w q).
Definition set_w (q : Queue) (v : Z) : Queue :=
  mkQueue (Capacity q) (items q) (len q) (mut q) (rx q) (ry q) v.

(** [q.mut.Lock()] and [q.mut.Unlock()].  Unlocking a mutex that is not
    held is a fatal error of the runtime. *)
Definition Lock (q : Queue) : outcome Queue :=
  if mut q then Blocked else Ret (set_mut q true).

Definition Unlock (q : Queue) : outcome Queue :=
  if mut q then Ret (set_mut q false) else Panic.

(** conq.go, lines 192-202.  [make] panics when the capacity is below the
    length 1, which happens exactly for a negative [Capacity], and when
    it is above [max_cap]. *)
Definition newSlice (q : Queue) (e : iface) : outcome (slice iface) :=
  let capacity := Capacity q in
  let capacity := if capacity =? 0 then 1 else capacity in
  make1 capacity e.

(** conq.go, lines 77-88. *)
Definition Enqueue (q : Queue) (item : iface) : outcome Queue :=
  q ← Lock q;
  q ← (if (slen (items q) =? 0) || (slen (items q) =? w q) then
         s ← newSlice q item;
         Ret (set_items q (append (items q) s))
       else
         c ← index (items q) (w q);
         its ← store (items q) (w q) (append c item);
         Ret (set_items q its));
  let q := set_len q (len q + 1) in
  Unlock q.

(** conq.go, lines 159-190.  The guard reads [q.items[q.ry]] only when
    there is a chunk ([||] short-circuits); the body re-reads it at every
    use, as the source does. *)
Definition dequeue (q : Queue) : outcome (Queue * (iface * bool)) :=
  empty ← (if slen (items q) =? 0 then Ret true
           else c ← index (items q) (ry q); Ret (slen c =? 0));
  if (empty : bool) then Ret (q, (nil, false))
  else
    c ← index (items q) (ry q);
    val ← index c (rx q);
    let q := set_len q (len q - 1) in
    c ← index (items q) (ry q);
    q ← (if slen c =? rx q + 1 then
           c ← index (items q) (ry q);
           its ← store (items q) (ry q) (truncate c);
           let q := set_items q its in
           let q := set_rx q 0 in
           if len q =? 0 then
             let q := set_items q (truncate (items q)) in
             Ret (set_w (set_ry q 0) 0)
           else
             Ret (set_ry q (w q))
         else
           let q := if w q =? ry q then
                      if 0 <? w q then set_w q 0 else set_w q (ry q + 1)
                    else q in
           Ret (set_rx q (rx q + 1)));
    Ret (q, (val, true)).

(** conq.go, lines 95-104.  The deferred [Unlock] runs after the result is
    chosen; when [dequeue] panics the panic goes on after it. *)
Definition Dequeue (q : Queue) : outcome (Queue * iface) :=
  q ← Lock q;
  '(q, (val, ok)) ← dequeue q;
  q ← Unlock q;
  Ret (q, if (ok : bool) then val else nil).

(** conq.go, lines 152-157. *)
Definition Len (q : Queue) : outcome (Queue * Z) :=
  q ← Lock q;
  let n := len q in
  q ← Unlock q;
  Ret (q, n).

(** ** Sequential runs through the public interface *)

Inductive op : Type :=
| OpEnqueue (item : iface)
| OpDequeue
| OpLen.

(** What a call reports.  [EvDequeue val ok] carries the value [Dequeue]
    returns and, as a ghost, the flag of the underlying [dequeue]. *)
Inductive event : Type :=
| EvEnqueue
| EvDequeue (val : iface) (ok : bool)
| EvLen (n : Z).

Definition succeeds (q : Queue) : bool :=
  match dequeue q with
  | Ret (_, (_, ok)) => ok
  | _ => false
  end.

Definition run_op (o : op) (q : Queue) : outcome (Queue * event) :=
  match o with
  | OpEnqueue item => q' ← Enqueue q item; Ret (q', EvEnqueue)
  | OpDequeue => '(q', val) ← Dequeue q; Ret (q', EvDequeue val (succeeds q))
  | OpLen => '(q', n) ← Len q; Ret (q', EvLen n)
  end.

Fixpoint run (ops : list op) (q : Queue) : outcome (Queue * list event) :=
  match ops with
  | [] => Ret (q, [])
  | o :: ops =>
      '(q, e) ← run_op o q;
      '(q, es) ← run ops q;
      Ret (q, e :: es)
  end.

(** The items handed to [Enqueue], and the items successful dequeues
    handed back, both in call order. *)
Fixpoint enqueued (ops : list op) : list iface :=
  match ops with
  | [] => []
  | OpEnqueue item :: ops => item :: enqueued ops
  | _ :: ops => enqueued ops
  end.

Fixpoint dequeued (es : list event) : list iface :=
  match es with
  | [] => []
  | EvDequeue val true :: es => val :: dequeued es
  | _ :: es => dequeued es
  end.

(** States a client can hold: a fresh queue, then any calls that return
    and, [Capacity] being the one exported field, any assignment to it
    between calls. *)
Inductive reachable : Queue -> Prop :=
| reach_New c : reachable (New c)
| reach_Capacity q c : reachable q -> reachable (set_Capacity q c)
| reach_Enqueue q item q' :
    reachable q -> Enqueue q item = Ret q' -> reachable q'
| reach_Dequeue q q' val :
    reachable q -> Dequeue q = Ret (q', val) -> reachable q'.

(** ** The logical queue a state stands for

    [rep q l]: the state [q] holds the items [l], oldest first.  The
    constructors are the layouts the code moves between: no chunk; one
    chunk that is both read and written (index 0 or 1, the other chunk
    empty or absent); a read chunk consumed up to [pre] with writes
    redirected to the other index. *)
Inductive rep : Queue -> list iface -> Prop :=
| rep_pristine C k :
    rep (mkQueue C (Slice [] k) 0 false 0 0 0) []
| rep_single0 C k l kc n :
    l ≠ [] -> n = Z.of_nat (length l) ->
    rep (mkQueue C (Slice [Slice l kc] k) n false 0 0 0) l
| rep_single0_spare C k l kc k1 n :
    l ≠ [] -> n = Z.of_nat (length l) ->
    rep (mkQueue C (Slice [Slice l kc; Slice [] k1] k) n false 0 0 0) l
| rep_single1 C k l kc k0 n :
    l ≠ [] -> n = Z.of_nat (length l) ->
    rep (mkQueue C (Slice [Slice [] k0; Slice l kc] k) n false 0 1 1) l
| rep_split01_lazy C k e pre post kc n r :
    e = pre ++ post -> post ≠ [] ->
    n = Z.of_nat (length post) -> r = Z.of_nat (length pre) ->
    rep (mkQueue C (Slice [Slice e kc] k) n false r 0 1) post
| rep_split01 C k e pre post kc l1 k1 n r l :
    e = pre ++ post -> l = post ++ l1 -> post ≠ [] ->
    n = Z.of_nat (length post) + Z.of_nat (length l1) ->
    r = Z.of_nat (length pre) ->
    rep (mkQueue C (Slice [Slice e kc; Slice l1 k1] k) n false r 0 1) l
| rep_split10 C k e pre post kc l0 k0 n r l :
    e = pre ++ post -> l = post ++ l0 -> post ≠ [] ->
    n = Z.of_nat (length post) + Z.of_nat (length l0) ->
    r = Z.of_nat (length pre) ->
    rep (mkQueue C (Slice [Slice l0 k0; Slice e kc] k) n false r 1 0) l.

(** Two states that differ at most in the capacity of the chunk sequence. *)
Definition forget (q : Queue) : Queue :=
  set_items q (Slice (elems (items q)) 0).

Definition same_layout (q1 q2 : Queue) : Prop := forget q1 = forget q2.

(** Two calls end the same way, with results related by [R]. *)
Definition outcome_rel {A B : Type} (R : A -> B -> Prop)
    (o1 : outcome A) (o2 : outcome B) : Prop :=
  match o1, o2 with
  | Ret a, Ret b => R a b
  | Panic, Panic | Blocked, Blocked | Pending, Pending => True
  | _, _ => False
  end.

(** ** Blocking dequeue

    [DequeueBlocking] polls.  What it cannot control is supplied by a
    schedule: per poll cycle, the time that passes before the timer is
    inspected, the time [time.Sleep] adds beyond [interval], and the calls
    other goroutines complete while the mutex is free.  A timer created at
    time [now] for duration [d] makes its channel readable from
    [now + d + latency] on, [latency] being the delivery delay of the
    runtime. *)

Record Timer : Type := mkTimer { fires_at : Z }.

Definition NewTimer (now latency d : Z) : Timer := mkTimer (now + d + latency).

(** [select { case <-timer.C: ...; default: ... }] at time [now] *)
Definition readable (t : Timer) (now : Z) : bool := fires_at t <=? now.

Record cycle : Type := mkCycle {
  gap : Z;
  oversleep : Z;
  others : list op
}.

Definition interfere (ops : list op) (q : Queue) : outcome Queue :=
  '(q, _) ← run ops q; Ret q.

(** conq.go, lines 124-146: the loop [for q.len == 0 { ... }] and the
    dequeue after it, entered with the mutex held.  One cycle of the
    schedule is one turn of the loop. *)
Fixpoint poll (timer : option Timer) (interval : Z) (sched : list cycle)
    (now : Z) (q : Queue) : outcome (Queue * iface * Z) :=
  if len q =? 0 then
    q ← Unlock q;
    match sched with
    | [] => Pending
    | c :: sched =>
        let now := now + gap c in
        if match timer with Some t => readable t now | None => false end
        then Ret (q, nil, now)
        else
          let now := if 0 <? interval then now + interval + oversleep c
                     else now in
          q ← interfere (others c) q;
          q ← Lock q;
          poll timer interval sched now q
    end
  else
    '(q, (val, _)) ← dequeue q;
    q ← Unlock q;
    Ret (q, val, now).

(** conq.go, lines 115-147.  [timer] stays nil unless [timeout > 0]; the
    deferred [timer.Stop()] changes nothing that is modelled. *)
Definition DequeueBlocking (timeout interval : Z) (latency : Z)
    (sched : list cycle) (now : Z) (q : Queue) : outcome (Queue * iface * Z) :=
  q ← Lock q;
  let timer := if 0 <? timeout then Some (NewTimer now latency timeout)
               else None in
  poll timer interval sched now q.

(** Schedules for a queue that stays empty and a clock that advances. *)
Definition is_enqueue (o : op) : bool :=
  match o with OpEnqueue _ => true | _ => false end.

Definition no_producer (c : cycle) : Prop :=
  Forall (fun o => is_enqueue o = false) (others c).

Definition ticking (c : cycle) : Prop := 1 <= gap c /\ 0 <= oversleep c.

(** ** Where the items are

    The stored items, oldest first, read off the fields: what is left of
    the read chunk from the read offset on, then the write chunk when it
    is another chunk.  An index without a chunk contributes nothing. *)
Definition chunk_at (q : Queue) (i : Z) : list iface :=
  match index (items q) i with
  | Ret c => elems c
  | _ => []
  end.

Definition contents (q : Queue) : list iface :=
  drop (Z.to_nat (rx q)) (chunk_at q (ry q)) ++
  (if w q =? ry q then [] else chunk_at q (w q)).

(** A series of blocking dequeues by one goroutine, each with its own
    arguments and schedule; a call starts when the one before returns. *)
Record blocking_call : Type := mkCall {
  call_timeout : Z;
  call_interval : Z;
  call_latency : Z;
  call_sched : list cycle
}.

Fixpoint DequeueBlocking_each (calls : list blocking_call) (now : Z)
    (q : Queue) : outcome (Queue * list iface * Z) :=
  match calls with
  | [] => Ret (q, [], now)
  | c :: calls =>
      '(q, val, now) ← DequeueBlocking (call_timeout c) (call_interval c)
                         (call_latency c) (call_sched c) now q;
      '(q, vals, now) ← DequeueBlocking_each calls now q;
      Ret (q, val :: vals, now)
  end.

(** ** Slice facts *)

Lemma in_range (i n : Z) : 0 <= i < n -> (0 <=? i) && (i <? n) = true.
Proof.
  intros [H0 Hn]. apply andb_true_intro.
  split; [by apply Z.leb_le | by apply Z.ltb_lt].
Qed.

Lemma index_mid {T} (pre post : list T) (x : T) (k r : Z) :
  r = Z.of_nat (length pre) ->
  index (Slice (pre ++ x :: post) k) r = Ret x.
Proof.
  intros ->. unfold index, slen. cbn [elems].
  rewrite in_range by (rewrite length_app; cbn [length]; lia).
  by rewrite Nat2Z.id, list_lookup_middle.
Qed.

Lemma index_head {T} (x : T) (l : list T) (k : Z) :
  index (Slice (x :: l) k) 0 = Ret x.
Proof. by apply (index_mid [] l x k 0). Qed.

Lemma index_second {T} (x y : T) (l : list T) (k : Z) :
  index (Slice (x :: y :: l) k) 1 = Ret y.
Proof. by apply (index_mid [x] l y k 1). Qed.

Lemma store_head {T} (x v : T) (l : list T) (k : Z) :
  store (Slice (x :: l) k) 0 v = Ret (Slice (v :: l) k).
Proof.
  unfold store, slen. cbn [elems cap length].
  by rewrite in_range by lia.
Qed.

Lemma store_second {T} (x y v : T) (l : list T) (k : Z) :
  store (Slice (x :: y :: l) k) 1 v = Ret (Slice (x :: v :: l) k).
Proof.
  unfold store, slen. cbn [elems cap length].
  by rewrite in_range by lia.
Qed.

Lemma slen_Slice {T} (l : list T) (k : Z) :
  slen (Slice l k) = Z.of_nat (length l).
Proof. done. Qed.

(** ** The methods, path by path *)

Lemma index_store {T} (s : slice T) (i : Z) (x v : T) :
  index s i = Ret x ->
  store s i v = Ret (Slice (<[Z.to_nat i := v]> (elems s)) (cap s)).
Proof.
  unfold index, store. by destruct ((0 <=? i) && (i <? slen s)).
Qed.

Lemma Enqueue_new_chunk q x :
  mut q = false ->
  slen (items q) = 0 \/ slen (items q) = w q ->
  Enqueue q x =
    let capacity := if Capacity q =? 0 then 1 else Capacity q in
    if (capacity <? 1) || (max_cap iface <? capacity) then Panic
    else Ret (mkQueue (Capacity q) (append (items q) (Slice [x] capacity))
                (len q + 1) false (rx q) (ry q) (w q)).
Proof.
  intros Hm Hc. destruct q as [C its n m r y w']. cbn in Hm, Hc. subst m.
  unfold Enqueue, Lock, newSlice, make1. cbn.
  replace ((slen its =? 0) || (slen its =? w')) with true.
  2:{ symmetry. apply orb_true_iff. destruct Hc; [left|right]; lia. }
  by destruct (((if C =? 0 then 1 else C) <? 1) ||
               (max_cap iface <? (if C =? 0 then 1 else C))).
Qed.

Lemma Enqueue_open_chunk q x c :
  mut q = false ->
  slen (items q) <> 0 -> slen (items q) <> w q ->
  index (items q) (w q) = Ret c ->
  Enqueue q x =
    Ret (mkQueue (Capacity q)
           (Slice (<[Z.to_nat (w q) := append c x]> (elems (items q)))
                  (cap (items q)))
           (len q + 1) false (rx q) (ry q) (w q)).
Proof.
  intros Hm H0 Hw Hc. destruct q as [C its n m r y w']. cbn in *. subst m.
  unfold Enqueue, Lock. cbn.
  replace ((slen its =? 0) || (slen its =? w')) with false.
  2:{ symmetry. apply orb_false_iff. split; lia. }
  rewrite Hc. cbn. by rewrite (index_store _ _ _ _ Hc).
Qed.

Lemma dequeue_no_chunk q : slen (items q) = 0 -> dequeue q = Ret (q, (nil, false)).
Proof. intros H. unfold dequeue. by rewrite H. Qed.

Lemma dequeue_empty_chunk q c :
  index (items q) (ry q) = Ret c -> slen c = 0 ->
  dequeue q = Ret (q, (nil, false)).
Proof.
  intros Hc H. unfold dequeue.
  destruct (slen (items q) =? 0); [done|].
  rewrite Hc. cbn. by rewrite H.
Qed.

Lemma dequeue_item q c val :
  slen (items q) <> 0 ->
  index (items q) (ry q) = Ret c -> slen c <> 0 ->
  index c (rx q) = Ret val ->
  dequeue q =
    Ret (if slen c =? rx q + 1 then
           let its := Slice (<[Z.to_nat (ry q) := truncate c]> (elems (items q)))
                            (cap (items q)) in
           if len q - 1 =? 0 then
             mkQueue (Capacity q) (truncate its) (len q - 1) (mut q) 0 0 0
           else
             mkQueue (Capacity q) its (len q - 1) (mut q) 0 (w q) (w q)
         else
           mkQueue (Capacity q) (items q) (len q - 1) (mut q) (rx q + 1) (ry q)
             (if w q =? ry q then if 0 <? w q then 0 else ry q + 1 else w q),
         (val, true)).
Proof.
  intros H0 Hc Hn Hv. destruct q as [C its n m r y w']. cbn in *.
  unfold dequeue. cbn.
  destruct (Z.eqb_spec (slen its) 0); [done|].
  rewrite Hc. cbn.
  destruct (Z.eqb_spec (slen c) 0); [done|].
  rewrite Hv. cbn.
  destruct (slen c =? r + 1).
  - rewrite (index_store _ _ _ _ Hc). cbn.
    by destruct (n - 1 =? 0).
  - cbn. destruct (w' =? y); [|done]. by destruct (0 <? w').
Qed.

(** ** Layouts are preserved *)

Lemma snoc_nonnil {T} (l : list T) (x : T) : l ++ [x] ≠ [].
Proof. by destruct l. Qed.

Lemma snoc_move {T} (pre : list T) (x : T) (rest : list T) :
  pre ++ x :: rest = (pre ++ [x]) ++ rest.
Proof. by rewrite <- app_assoc. Qed.

Ltac rep_side :=
  lazymatch goal with
  | |- ?G =>
      tryif has_evar G then reflexivity
      else (rewrite ?length_app; cbn [length app];
            first [ done | lia | apply snoc_nonnil | by rewrite <- app_assoc
                  | by rewrite app_nil_r | by apply snoc_move ])
  end.

(** After a dequeue that leaves the read chunk partly consumed, the
    consumed prefix has grown by the item just returned. *)
Ltac rep_shift :=
  lazymatch goal with
  | |- rep (mkQueue _ (Slice [Slice (?pre ++ ?a :: ?rest) _] _) _ _ _ _ _) _ =>
      eapply rep_split01_lazy with (pre := pre ++ [a]) (post := rest)
  | |- rep (mkQueue _ (Slice [Slice (?pre ++ ?a :: ?rest) _; _] _) _ _ _ _ _) _ =>
      eapply rep_split01 with (pre := pre ++ [a]) (post := rest)
  | |- rep (mkQueue _ (Slice [_; Slice (?pre ++ ?a :: ?rest) _] _) _ _ _ _ _) _ =>
      eapply rep_split10 with (pre := pre ++ [a]) (post := rest)
  | |- rep (mkQueue _ (Slice [Slice (?a :: ?rest) _] _) _ _ _ _ _) _ =>
      eapply rep_split01_lazy with (pre := [a]) (post := rest)
  | |- rep (mkQueue _ (Slice [Slice (?a :: ?rest) _; _] _) _ _ _ _ _) _ =>
      eapply rep_split01 with (pre := [a]) (post := rest)
  | |- rep (mkQueue _ (Slice [_; Slice (?a :: ?rest) _] _) _ _ _ _ _) _ =>
      eapply rep_split10 with (pre := [a]) (post := rest)
  end.

Ltac rep_close :=
  first [ solve [econstructor; rep_side] | solve [rep_shift; rep_side] ].

Ltac slice_red :=
  cbn [Capacity items len mut rx ry w elems cap length app];
  rewrite ?slen_Slice, ?length_app; cbn [length].

Ltac test_red :=
  repeat (match goal with
          | |- context [Z.eqb ?a ?b] => destruct (Z.eqb_spec a b)
          | |- context [Z.ltb ?a ?b] => destruct (Z.ltb_spec a b)
          end; cbn [orb]; try lia).

Ltac layout_red :=
  unfold append, truncate;
  cbn [Capacity items len mut rx ry w elems cap app insert list_insert
       Z.to_nat Pos.to_nat Pos.iter_op Nat.add].

Ltac slen_side :=
  cbn [items rx ry w]; rewrite ?slen_Slice, ?length_app; cbn [length]; lia.

Ltac new_chunk :=
  rewrite Enqueue_new_chunk by (first [done | left; slen_side | right; slen_side]).

Ltac open_chunk :=
  erewrite Enqueue_open_chunk;
    [ | reflexivity | slen_side | slen_side
      | first [apply index_head | apply index_second] ].

Lemma rep_Enqueue q l x :
  rep q l ->
  match Enqueue q x with
  | Ret q' => rep q' (l ++ [x]) /\ Capacity q' = Capacity q
  | Panic => Capacity q < 0 \/ max_cap iface < Z.max 1 (Capacity q)
  | _ => False
  end.
Proof.
  intros Hrep. destruct Hrep; subst; first [open_chunk | new_chunk].
  all: slice_red; test_red; layout_red.
  all: split; [|reflexivity].
  all: econstructor.
  all: try reflexivity.
  all: rep_side.
Qed.

Ltac take_item :=
  erewrite dequeue_item;
    [ | slen_side
      | first [apply index_head | apply index_second]
      | slen_side
      | first [apply index_head | by apply index_mid] ].

Lemma rep_dequeue_cons q x l :
  rep q (x :: l) ->
  exists q', dequeue q = Ret (q', (x, true)) /\ rep q' l /\
             Capacity q' = Capacity q.
Proof.
  intros Hrep. inversion Hrep; subst; clear Hrep;
    try match goal with
        | H : x :: l = ?post ++ _ |- _ =>
            destruct post as [|? post']; [done|]; simplify_eq/=
        end.
  1-4: destruct l as [|y l]; take_item; slice_red; test_red; layout_red;
    (eexists; split; [reflexivity|]); (split; [|reflexivity]); rep_close.
  - destruct post' as [|y post']; [destruct l1 as [|z l1]|]; take_item;
      slice_red; test_red; layout_red;
      (eexists; split; [reflexivity|]); (split; [|reflexivity]); rep_close.
  - destruct post' as [|y post']; [destruct l0 as [|z l0]|]; take_item;
      slice_red; test_red; layout_red;
      (eexists; split; [reflexivity|]); (split; [|reflexivity]); rep_close.
Qed.

Lemma rep_nil q :
  rep q [] -> exists C k, q = mkQueue C (Slice [] k) 0 false 0 0 0.
Proof.
  inversion 1; subst; try done; eauto.
  all: match goal with
       | H : [] = ?post ++ _ |- _ => by destruct post
       end.
Qed.

Lemma rep_dequeue_nil q : rep q [] -> dequeue q = Ret (q, (nil, false)).
Proof. intros (C & k & ->)%rep_nil. by apply dequeue_no_chunk. Qed.

Lemma rep_len q l : rep q l -> len q = Z.of_nat (length l).
Proof. destruct 1; subst; cbn [len length]; rewrite ?length_app; lia. Qed.

Lemma rep_mut q l : rep q l -> mut q = false.
Proof. by destruct 1. Qed.

Lemma rep_bound q l :
  rep q l ->
  (length (elems (items q)) <= 2)%nat /\
  (w q = 0 \/ w q = 1) /\ (ry q = 0 \/ ry q = 1).
Proof. destruct 1; cbn; lia. Qed.

(** ** The mutex and the public wrappers *)

Lemma unlock_lock q : mut q = false -> set_mut (set_mut q true) false = q.
Proof. destruct q. cbn. by intros ->. Qed.

Lemma dequeue_mut q q' r : dequeue q = Ret (q', r) -> mut q' = mut q.
Proof.
  destruct q as [C its n m r0 y w']. unfold dequeue. cbn.
  destruct (slen its =? 0); cbn; [by intros [= <- _]|].
  destruct (index its y) as [c| | |]; cbn; try done.
  destruct (slen c =? 0); cbn; [by intros [= <- _]|].
  destruct (index c r0); cbn; try done.
  destruct (slen c =? r0 + 1).
  - destruct (store its y (truncate c)); cbn; try done.
    by destruct (n - 1 =? 0); intros [= <- _].
  - destruct (w' =? y); [destruct (0 <? w')|]; by intros [= <- _].
Qed.

Lemma dequeue_set_mut q b :
  dequeue (set_mut q b) = (fun '(q', r) => (set_mut q' b, r)) <$> dequeue q.
Proof.
  destruct q as [C its n m r0 y w']. unfold dequeue. cbn.
  destruct (slen its =? 0); cbn; [done|].
  destruct (index its y) as [c| | |]; cbn; try done.
  destruct (slen c =? 0); cbn; [done|].
  destruct (index c r0); cbn; try done.
  destruct (slen c =? r0 + 1).
  - destruct (store its y (truncate c)); cbn; try done.
    by destruct (n - 1 =? 0).
  - destruct (w' =? y); [destruct (0 <? w')|]; done.
Qed.

Lemma dequeue_miss q q' val :
  dequeue q = Ret (q', (val, false)) -> q' = q /\ val = nil.
Proof.
  destruct q as [C its n m r0 y w']. unfold dequeue. cbn.
  destruct (slen its =? 0); cbn; [by intros [= <- <-]|].
  destruct (index its y) as [c| | |]; cbn; try done.
  destruct (slen c =? 0); cbn; [by intros [= <- <-]|].
  destruct (index c r0); cbn; try done.
  destruct (slen c =? r0 + 1).
  - destruct (store its y (truncate c)); cbn; try done.
    by destruct (n - 1 =? 0).
  - destruct (w' =? y); [destruct (0 <? w')|]; done.
Qed.

Lemma Dequeue_unlocked q :
  mut q = false ->
  Dequeue q =
    '(q', (val, ok)) ← dequeue q; Ret (q', if (ok : bool) then val else nil).
Proof.
  intros Hm. unfold Dequeue, Lock. rewrite Hm. cbn.
  rewrite dequeue_set_mut.
  destruct (dequeue q) as [[q' [val ok]]| | |] eqn:E; cbn; try done.
  apply dequeue_mut in E. rewrite Hm in E.
  unfold Unlock. cbn. by rewrite unlock_lock.
Qed.

Lemma Dequeue_locked q : mut q = true -> Dequeue q = Blocked.
Proof. intros Hm. unfold Dequeue, Lock. by rewrite Hm. Qed.

Lemma Len_unlocked q : mut q = false -> Len q = Ret (q, len q).
Proof.
  intros Hm. unfold Len, Lock, Unlock. rewrite Hm. cbn.
  by rewrite unlock_lock.
Qed.

Lemma rep_Dequeue_cons q x l :
  rep q (x :: l) ->
  exists q', Dequeue q = Ret (q', x) /\ succeeds q = true /\ rep q' l /\
             Capacity q' = Capacity q.
Proof.
  intros Hrep. destruct (rep_dequeue_cons _ _ _ Hrep) as (q' & E & Hq' & HC).
  exists q'. rewrite Dequeue_unlocked by eauto using rep_mut.
  unfold succeeds. by rewrite E.
Qed.

Lemma rep_Dequeue_nil q :
  rep q [] -> Dequeue q = Ret (q, nil) /\ succeeds q = false.
Proof.
  intros Hrep. rewrite Dequeue_unlocked by eauto using rep_mut.
  unfold succeeds. by rewrite (rep_dequeue_nil _ Hrep).
Qed.

(** ** Every reachable state has a layout *)

Lemma rep_set_Capacity q l c : rep q l -> rep (set_Capacity q c) l.
Proof. destruct 1; by econstructor. Qed.

Lemma reachable_rep q : reachable q -> exists l, rep q l.
Proof.
  induction 1 as [c|q c _ [l Hl]|q item q' _ [l Hl] E|q q' val _ [l Hl] E].
  - exists []. constructor.
  - exists l. by apply rep_set_Capacity.
  - exists (l ++ [item]). pose proof (rep_Enqueue q l item Hl) as H.
    rewrite E in H. tauto.
  - destruct l as [|x l].
    + destruct (rep_Dequeue_nil _ Hl) as [E' _]. exists [].
      rewrite E' in E. by injection E as <- _.
    + destruct (rep_Dequeue_cons _ _ _ Hl) as (q1 & E' & _ & Hq1 & _).
      exists l. rewrite E' in E. by injection E as <- _.
Qed.

Lemma reachable_mut q : reachable q -> mut q = false.
Proof. intros [l Hl]%reachable_rep. eauto using rep_mut. Qed.

Lemma reachable_len q : reachable q -> 0 <= len q.
Proof. intros [l Hl]%reachable_rep. rewrite (rep_len _ _ Hl). lia. Qed.

Lemma reachable_empty q :
  reachable q -> len q = 0 ->
  exists k, q = mkQueue (Capacity q) (Slice [] k) 0 false 0 0 0.
Proof.
  intros [l Hl]%reachable_rep Hn. rewrite (rep_len _ _ Hl) in Hn.
  destruct l; [|done]. destruct (rep_nil _ Hl) as (C & k & ->). by exists k.
Qed.

(** ** Runs *)

Lemma run_app ops1 ops2 q :
  run (ops1 ++ ops2) q =
    '(q1, es1) ← run ops1 q; '(q2, es2) ← run ops2 q1; Ret (q2, es1 ++ es2).
Proof.
  revert q. induction ops1 as [|o ops1 IH]; intros q; cbn.
  - by destruct (run ops2 q) as [[q2 es2]| | |].
  - destruct (run_op o q) as [[q1 e]| | |]; cbn; try done.
    rewrite IH. destruct (run ops1 q1) as [[q2 es1]| | |]; cbn; try done.
    by destruct (run ops2 q2) as [[q3 es2]| | |].
Qed.

Lemma rep_run_ret ops : forall q l q' es,
  rep q l -> run ops q = Ret (q', es) ->
  exists l',
    rep q' l' /\ Capacity q' = Capacity q /\
    l ++ enqueued ops = dequeued es ++ l'.
Proof.
  induction ops as [|o ops IH]; intros q l q' es Hl; cbn.
  - intros [= <- <-]. exists l. by rewrite app_nil_r.
  - destruct o as [item| |]; cbn.
    + pose proof (rep_Enqueue q l item Hl) as H.
      destruct (Enqueue q item) as [q1| | |]; try done.
      destruct H as [H1 HC1]. cbn.
      destruct (run ops q1) as [[q2 es2]| | |] eqn:E; cbn; try done.
      intros [= <- <-].
      destruct (IH _ _ _ _ H1 E) as (l' & Hq' & HC' & Hfifo).
      exists l'. cbn. rewrite <- Hfifo, <- app_assoc.
      split_and!; [done|congruence|done].
    + destruct l as [|x l].
      * destruct (rep_Dequeue_nil _ Hl) as [E1 Hs]. rewrite E1, Hs. cbn.
        destruct (run ops q) as [[q2 es2]| | |] eqn:E; cbn; try done.
        intros [= <- <-]. by apply (IH _ _ _ _ Hl E).
      * destruct (rep_Dequeue_cons _ _ _ Hl) as (q1 & E1 & Hs & H1 & HC1).
        rewrite E1, Hs. cbn.
        destruct (run ops q1) as [[q2 es2]| | |] eqn:E; cbn; try done.
        intros [= <- <-].
        destruct (IH _ _ _ _ H1 E) as (l' & Hq' & HC' & Hfifo).
        exists l'. cbn. rewrite <- Hfifo.
        split_and!; [done|congruence|done].
    + rewrite Len_unlocked by eauto using rep_mut. cbn.
      destruct (run ops q) as [[q2 es2]| | |] eqn:E; cbn; try done.
      intros [= <- <-]. by apply (IH _ _ _ _ Hl E).
Qed.

Lemma rep_run_total ops : forall q l,
  rep q l -> 0 <= Capacity q -> Z.max 1 (Capacity q) <= max_cap iface ->
  exists q' es, run ops q = Ret (q', es).
Proof.
  induction ops as [|o ops IH]; intros q l Hl HC HM; [by eexists _, _|].
  destruct o as [item| |]; cbn.
  - pose proof (rep_Enqueue q l item Hl) as H.
    destruct (Enqueue q item) as [q1| | |]; try done; [|lia].
    destruct H as [H1 HC1]. cbn.
    destruct (IH q1 _ H1) as (q' & es & ->); [lia..|]. by eexists _, _.
  - destruct l as [|x l].
    + destruct (rep_Dequeue_nil _ Hl) as [E1 Hs]. rewrite E1. cbn.
      destruct (IH q _ Hl HC HM) as (q' & es & ->). by eexists _, _.
    + destruct (rep_Dequeue_cons _ _ _ Hl) as (q1 & E1 & Hs & H1 & HC1).
      rewrite E1. cbn.
      destruct (IH q1 _ H1) as (q' & es & ->); [lia..|]. by eexists _, _.
  - rewrite Len_unlocked by eauto using rep_mut. cbn.
    destruct (IH q _ Hl HC HM) as (q' & es & ->). by eexists _, _.
Qed.

Lemma rep_run ops q l :
  rep q l -> 0 <= Capacity q -> Z.max 1 (Capacity q) <= max_cap iface ->
  exists q' es l',
    run ops q = Ret (q', es) /\ rep q' l' /\ Capacity q' = Capacity q /\
    l ++ enqueued ops = dequeued es ++ l'.
Proof.
  intros Hl HC HM.
  destruct (rep_run_total ops q l Hl HC HM) as (q' & es & E).
  destruct (rep_run_ret ops q l q' es Hl E) as (l' & ? & ? & ?).
  by exists q', es, l'.
Qed.

Lemma run_reachable ops : forall q q' es,
  reachable q -> run ops q = Ret (q', es) -> reachable q'.
Proof.
  induction ops as [|o ops IH]; intros q q' es Hq; cbn.
  - by intros [= <- _].
  - destruct (run_op o q) as [[q1 e]| | |] eqn:E; cbn; try done.
    destruct (run ops q1) as [[q2 es2]| | |] eqn:E2; cbn; try done.
    intros [= <- _]. eapply IH; [|done].
    destruct o as [item| |]; cbn in E.
    + destruct (Enqueue q item) eqn:E'; simplify_eq/=. by econstructor.
    + destruct (Dequeue q) as [[]| | |] eqn:E'; simplify_eq/=. by econstructor.
    + rewrite Len_unlocked in E by auto using reachable_mut.
      by simplify_eq/=.
Qed.

(** ** The capacity of the chunk sequence is not observable *)

Lemma same_layout_refl q : same_layout q q.
Proof. done. Qed.

Lemma same_layout_inv q1 q2 :
  same_layout q1 q2 ->
  exists C l k1 k2 n m r y w',
    q1 = mkQueue C (Slice l k1) n m r y w' /\
    q2 = mkQueue C (Slice l k2) n m r y w'.
Proof.
  destruct q1 as [C1 [l1 k1] n1 m1 r1 y1 w1], q2 as [C2 [l2 k2] n2 m2 r2 y2 w2].
  unfold same_layout, forget, set_items. cbn. intros [=]; subst.
  by exists C2, l2, k1, k2, n2, m2, r2, y2, w2.
Qed.

Lemma same_layout_Enqueue q1 q2 x :
  same_layout q1 q2 ->
  outcome_rel same_layout (Enqueue q1 x) (Enqueue q2 x).
Proof.
  intros (C & l & k1 & k2 & n & m & r & y & w' & -> & ->)%same_layout_inv.
  unfold Enqueue, Lock, Unlock, newSlice, make1, index, store, slen. cbn.
  destruct m; cbn; [done|].
  destruct ((Z.of_nat (length l) =? 0) || (Z.of_nat (length l) =? w')); cbn.
  - by destruct (((if C =? 0 then 1 else C) <? 1) ||
               (max_cap iface <? (if C =? 0 then 1 else C))).
  - destruct ((0 <=? w') && (w' <? Z.of_nat (length l))); cbn; [|done].
    by destruct (l !! Z.to_nat w').
Qed.

Lemma same_layout_dequeue q1 q2 :
  same_layout q1 q2 ->
  outcome_rel (fun a b => same_layout a.1 b.1 /\ a.2 = b.2)
    (dequeue q1) (dequeue q2).
Proof.
  intros (C & l & k1 & k2 & n & m & r & y & w' & -> & ->)%same_layout_inv.
  unfold dequeue, index, store, slen. cbn.
  destruct (Z.of_nat (length l) =? 0); cbn; [done|].
  destruct ((0 <=? y) && (y <? Z.of_nat (length l))); cbn; [|done].
  destruct (l !! Z.to_nat y) as [c|]; cbn; [|done].
  destruct (Z.of_nat (length (elems c)) =? 0); cbn; [done|].
  destruct ((0 <=? r) && (r <? Z.of_nat (length (elems c)))); cbn; [|done].
  destruct (elems c !! Z.to_nat r) as [val|]; cbn; [|done].
  destruct (Z.of_nat (length (elems c)) =? r + 1); cbn.
  - by destruct (n - 1 =? 0).
  - destruct (w' =? y); [destruct (0 <? w')|]; done.
Qed.

Lemma same_layout_mut q1 q2 : same_layout q1 q2 -> mut q1 = mut q2.
Proof.
  by intros (C & l & k1 & k2 & n & m & r & y & w' & -> & ->)%same_layout_inv.
Qed.

Lemma same_layout_set_mut q1 q2 b :
  same_layout q1 q2 -> same_layout (set_mut q1 b) (set_mut q2 b).
Proof.
  by intros (C & l & k1 & k2 & n & m & r & y & w' & -> & ->)%same_layout_inv.
Qed.

Lemma same_layout_Dequeue q1 q2 :
  same_layout q1 q2 ->
  outcome_rel (fun a b => same_layout a.1 b.1 /\ a.2 = b.2)
    (Dequeue q1) (Dequeue q2) /\
  succeeds q1 = succeeds q2.
Proof.
  intros H. pose proof (same_layout_mut _ _ H) as Hm.
  pose proof (same_layout_dequeue _ _ H) as Hd.
  split.
  - pose proof (same_layout_dequeue _ _ (same_layout_set_mut _ _ true H)) as Hl.
    unfold Dequeue, Lock. rewrite <- Hm. destruct (mut q1); cbn; [done|].
    destruct (dequeue (set_mut q1 true)) as [[a [v1 ok1]]| | |],
             (dequeue (set_mut q2 true)) as [[b [v2 ok2]]| | |];
      cbn in *; try done.
    destruct Hl as [Hab [= -> ->]].
    unfold Unlock. rewrite <- (same_layout_mut _ _ Hab).
    destruct (mut a); cbn; [|done].
    split; [|done]. by apply same_layout_set_mut.
  - unfold succeeds.
    destruct (dequeue q1) as [[a [v1 ok1]]| | |],
             (dequeue q2) as [[b [v2 ok2]]| | |]; cbn in *; try done.
    by destruct Hd as [_ [= _ ->]].
Qed.

Lemma same_layout_Len q1 q2 :
  same_layout q1 q2 ->
  outcome_rel (fun a b => same_layout a.1 b.1 /\ a.2 = b.2) (Len q1) (Len q2).
Proof.
  by intros (C & l & k1 & k2 & n & [] & r & y & w' & -> & ->)%same_layout_inv.
Qed.

Lemma same_layout_run ops : forall q1 q2,
  same_layout q1 q2 ->
  outcome_rel (fun a b => same_layout a.1 b.1 /\ a.2 = b.2)
    (run ops q1) (run ops q2).
Proof.
  induction ops as [|o ops IH]; intros q1 q2 H; cbn; [done|].
  assert (outcome_rel (fun a b => same_layout a.1 b.1 /\ a.2 = b.2)
            (run_op o q1) (run_op o q2)) as Hop.
  { destruct o as [item| |]; cbn.
    - pose proof (same_layout_Enqueue _ _ item H) as HE.
      by destruct (Enqueue q1 item), (Enqueue q2 item).
    - destruct (same_layout_Dequeue _ _ H) as [HD Hs]. rewrite Hs.
      destruct (Dequeue q1) as [[a v1]| | |], (Dequeue q2) as [[b v2]| | |];
        cbn in *; try done.
      by destruct HD as [? ->].
    - pose proof (same_layout_Len _ _ H) as HL.
      destruct (Len q1) as [[a v1]| | |], (Len q2) as [[b v2]| | |];
        cbn in *; try done.
      by destruct HL as [? ->]. }
  destruct (run_op o q1) as [[a e1]| | |], (run_op o q2) as [[b e2]| | |];
    cbn in *; try done.
  destruct Hop as [Hab ->]. specialize (IH _ _ Hab).
  destruct (run ops a) as [[a' es1]| | |], (run ops b) as [[b' es2]| | |];
    cbn in *; try done.
  by destruct IH as [? ->].
Qed.

Lemma same_layout_observe ops q1 q2 :
  same_layout q1 q2 -> snd <$> run ops q1 = snd <$> run ops q2.
Proof.
  intros H. pose proof (same_layout_run ops _ _ H) as Hr.
  destruct (run ops q1) as [[a es1]| | |], (run ops q2) as [[b es2]| | |];
    cbn in *; try done.
  by destruct Hr as [_ ->].
Qed.

(** ** The polling loop *)

Lemma lock_unlocked q : mut q = false -> Lock q = Ret (set_mut q true).
Proof. unfold Lock. by intros ->. Qed.

Lemma unlock_locked q : mut q = false -> Unlock (set_mut q true) = Ret q.
Proof. intros Hm. unfold Unlock. cbn. by rewrite unlock_lock. Qed.

Ltac mred := cbn [fmap outcome_fmap mbind outcome_bind mret outcome_ret].

Lemma poll_ready timer interval sched now q :
  mut q = false -> len q <> 0 ->
  poll timer interval sched now (set_mut q true) =
    (fun r => (r, now)) <$> Dequeue q.
Proof.
  intros Hm Hn.
  assert (poll timer interval sched now (set_mut q true) =
            '(q, (val, _)) ← dequeue (set_mut q true);
            q ← Unlock q; Ret (q, val, now)) as ->.
  { destruct sched; cbn [poll set_mut len];
      by destruct (Z.eqb_spec (len q) 0). }
  rewrite Dequeue_unlocked, dequeue_set_mut by done.
  destruct (dequeue q) as [[q' [val ok]]| | |] eqn:E; mred; try done.
  rewrite unlock_locked by (apply dequeue_mut in E; congruence). mred.
  destruct ok; [done|]. by destruct (dequeue_miss _ _ _ E) as [_ ->].
Qed.

Lemma poll_idle timer interval now q :
  mut q = false -> len q = 0 ->
  poll timer interval [] now (set_mut q true) = Pending.
Proof.
  intros Hm Hz. cbn [poll].
  change (len (set_mut q true)) with (len q). rewrite Hz. cbn [Z.eqb].
  by rewrite unlock_locked.
Qed.

Lemma poll_cycle timer interval c sched now q :
  mut q = false -> len q = 0 ->
  poll timer interval (c :: sched) now (set_mut q true) =
    if match timer with
       | Some t => readable t (now + gap c)
       | None => false
       end
    then Ret (q, nil, now + gap c)
    else
      q ← interfere (others c) q;
      q ← Lock q;
      poll timer interval sched
        (if 0 <? interval then now + gap c + interval + oversleep c
         else now + gap c) q.
Proof.
  intros Hm Hz. cbn [poll].
  change (len (set_mut q true)) with (len q). rewrite Hz. cbn [Z.eqb].
  by rewrite unlock_locked.
Qed.

Lemma quiet_interfere ops q :
  reachable q -> len q = 0 ->
  Forall (fun o => is_enqueue o = false) ops ->
  interfere ops q = Ret q.
Proof.
  intros Hq Hn Hops. unfold interfere.
  assert (exists es, run ops q = Ret (q, es)) as [es ->]; [|done].
  induction Hops as [|o ops Ho _ [es IH]]; cbn; [by eexists|].
  destruct (reachable_rep _ Hq) as [l Hl].
  assert (l = []) as ->.
  { rewrite (rep_len _ _ Hl) in Hn. by destruct l. }
  destruct o as [item| |]; [done| |]; cbn.
  - destruct (rep_Dequeue_nil _ Hl) as [-> _]. cbn. rewrite IH. by eexists.
  - rewrite Len_unlocked by eauto using rep_mut. cbn. rewrite IH. by eexists.
Qed.

Lemma poll_exits timer interval sched : forall now q q' val t,
  reachable q ->
  poll timer interval sched now (set_mut q true) = Ret (q', val, t) ->
  (exists tm, timer = Some tm /\ readable tm t = true /\
              val = nil /\ mut q' = false /\ len q' = 0) \/
  (exists qk, reachable qk /\ 0 < len qk /\ Dequeue qk = Ret (q', val)).
Proof.
  induction sched as [|c sched IH]; intros now q q' val t Hq;
    pose proof (reachable_mut _ Hq) as Hm;
    pose proof (reachable_len _ Hq) as Hlen;
    (destruct (Z.eq_dec (len q) 0) as [Hz|Hnz];
     [|rewrite poll_ready by done; right; exists q;
       destruct (Dequeue q) as [[]| | |]; simplify_eq/=;
       split_and!; [done|lia|done]]).
  - by rewrite poll_idle.
  - rewrite poll_cycle by done.
    destruct (match timer with
              | Some tm => readable tm (now + gap c)
              | None => false
              end) eqn:Hfire.
    + intros [= <- <- <-]. left. destruct timer as [tm|]; [|done].
      by exists tm.
    + unfold interfere.
      destruct (run (others c) q) as [[q2 es]| | |] eqn:Hrun; mred; try done.
      pose proof (run_reachable _ _ _ _ Hq Hrun) as Hq2.
      rewrite lock_unlocked by auto using reachable_mut. mred.
      by apply IH.
Qed.

Lemma poll_quiet_exit timer interval sched : forall now q q' val t,
  reachable q -> len q = 0 -> Forall no_producer sched ->
  poll timer interval sched now (set_mut q true) = Ret (q', val, t) ->
  q' = q /\ val = nil /\
  exists tm, timer = Some tm /\ fires_at tm <= t.
Proof.
  induction sched as [|c sched IH]; intros now q q' val t Hq Hz Hquiet;
    pose proof (reachable_mut _ Hq) as Hm; [by rewrite poll_idle|].
  rewrite poll_cycle by done.
  inversion_clear Hquiet as [|? ? Hc Hrest].
  destruct (match timer with
            | Some tm => readable tm (now + gap c)
            | None => false
            end) eqn:Hfire.
  - intros [= <- <- <-]. split_and!; [done..|].
    destruct timer as [tm|]; [|done]. exists tm.
    split; [done|]. by apply Z.leb_le.
  - rewrite quiet_interfere by done. mred.
    rewrite lock_unlocked by done. mred. by apply IH.
Qed.

Lemma poll_quiet_returns tm interval sched : forall now q,
  reachable q -> len q = 0 ->
  Forall no_producer sched -> Forall ticking sched ->
  (1 <= length sched)%nat -> fires_at tm - now <= Z.of_nat (length sched) ->
  exists t,
    poll (Some tm) interval sched now (set_mut q true) = Ret (q, nil, t) /\
    fires_at tm <= t.
Proof.
  induction sched as [|c sched IH]; intros now q Hq Hz Hquiet Htick H1 Hlen;
    [cbn in H1; lia|].
  pose proof (reachable_mut _ Hq) as Hm.
  inversion_clear Hquiet as [|? ? Hc Hrest].
  inversion_clear Htick as [|? ? [Hgap Hover] Hticks].
  rewrite poll_cycle by done.
  unfold readable. destruct (Z.leb_spec (fires_at tm) (now + gap c)) as [Hf|Hf].
  - by exists (now + gap c).
  - rewrite quiet_interfere by done. mred.
    rewrite lock_unlocked by done. mred.
    cbn [length] in Hlen.
    apply IH; try done.
    + destruct sched; cbn [length] in *; lia.
    + destruct (Z.ltb_spec 0 interval); lia.
Qed.

Lemma poll_quiet_forever interval sched : forall now q,
  reachable q -> len q = 0 -> Forall no_producer sched ->
  poll None interval sched now (set_mut q true) = Pending.
Proof.
  induction sched as [|c sched IH]; intros now q Hq Hz Hquiet;
    pose proof (reachable_mut _ Hq) as Hm; [by rewrite poll_idle|].
  rewrite poll_cycle by done.
  inversion_clear Hquiet as [|? ? Hc Hrest].
  rewrite quiet_interfere by done. mred.
  rewrite lock_unlocked by done. mred. by apply IH.
Qed.

(** ** The properties of the specification *)

Lemma run_enqueues xs : forall q l q' es,
  rep q l -> run (map OpEnqueue xs) q = Ret (q', es) ->
  es = replicate (length xs) EvEnqueue /\ rep q' (l ++ xs) /\
  Capacity q' = Capacity q.
Proof.
  induction xs as [|x xs IH]; intros q l q' es Hl; cbn.
  - intros [= <- <-]. by rewrite app_nil_r.
  - pose proof (rep_Enqueue q l x Hl) as H.
    destruct (Enqueue q x) as [q1| | |]; try done.
    destruct H as [H1 HC1]. cbn.
    destruct (run (map OpEnqueue xs) q1) as [[q2 es2]| | |] eqn:E;
      cbn; try done.
    intros [= <- <-]. destruct (IH _ _ _ _ H1 E) as (-> & Hq' & HC').
    rewrite <- app_assoc in Hq'. split_and!; [done..|congruence].
Qed.

Lemma run_dequeues l : forall q,
  rep q l ->
  exists q',
    run (replicate (length l) OpDequeue) q =
      Ret (q', map (fun x => EvDequeue x true) l) /\
    rep q' [] /\ Capacity q' = Capacity q.
Proof.
  induction l as [|x l IH]; intros q Hl; cbn.
  - by exists q.
  - destruct (rep_Dequeue_cons _ _ _ Hl) as (q1 & E1 & Hs & H1 & HC1).
    rewrite E1, Hs. cbn.
    destruct (IH q1 H1) as (q' & E & Hq' & HC').
    exists q'. rewrite E. cbn. split_and!; [done..|congruence].
Qed.

Lemma fifo_from q0 l xs q es :
  rep q0 l ->
  run (map OpEnqueue xs ++ replicate (length l + length xs) OpDequeue) q0 =
    Ret (q, es) ->
  es = replicate (length xs) EvEnqueue ++
       map (fun x => EvDequeue x true) (l ++ xs) /\
  rep q [] /\ Capacity q = Capacity q0.
Proof.
  intros Hl. rewrite run_app.
  destruct (run (map OpEnqueue xs) q0) as [[q1 es1]| | |] eqn:E1;
    cbn; try done.
  destruct (run_enqueues _ _ _ _ _ Hl E1) as (-> & H1 & HC1).
  destruct (run_dequeues _ _ H1) as (q2 & E2 & H2 & HC2).
  rewrite length_app in E2. rewrite E2. cbn.
  intros [= <- <-]. split_and!; [done..|congruence].
Qed.

(** C1.  FIFO order.  Whenever N enqueues followed by as many dequeues as
    there are items are performed, on a fresh queue or from any reachable
    state (whose stored items [old] come out first, whatever chunks hold
    them), every dequeue finds an item and the items come back exactly in
    the order they went in; and in any run the items dequeued so far are a
    prefix of the items enqueued.  With a capacity that [make] accepts
    the calls are performed: every run returns. *)
Theorem fifo_order (c : Z) (xs : list iface) :
  (forall q0 q es, reachable q0 ->
     run (map OpEnqueue xs ++
          replicate (Z.to_nat (len q0) + length xs) OpDequeue) q0 =
       Ret (q, es) ->
     exists old,
       Z.of_nat (length old) = len q0 /\
       es = replicate (length xs) EvEnqueue ++
            map (fun x => EvDequeue x true) (old ++ xs)) /\
  (forall q es,
     run (map OpEnqueue xs ++ replicate (length xs) OpDequeue) (New c) =
       Ret (q, es) ->
     es = replicate (length xs) EvEnqueue ++
          map (fun x => EvDequeue x true) xs) /\
  (forall ops q es,
     run ops (New c) = Ret (q, es) ->
     dequeued es `prefix_of` enqueued ops) /\
  (0 <= c -> Z.max 1 c <= max_cap iface ->
   forall q0, reachable q0 -> Capacity q0 = c ->
   forall ops, exists q es, run ops q0 = Ret (q, es)).
Proof.
  split_and!.
  - intros q0 q es [old Hold]%reachable_rep.
    rewrite (rep_len _ _ Hold), Nat2Z.id. intros E.
    destruct (fifo_from _ _ _ _ _ Hold E) as (-> & _).
    by exists old.
  - intros q es E.
    by destruct (fifo_from (New c) [] xs q es (rep_pristine c 0) E) as (-> & _).
  - intros ops q es E.
    destruct (rep_run_ret ops (New c) [] q es (rep_pristine c 0) E)
      as (l' & _ & _ & Hfifo).
    by exists l'.
  - intros Hc Hmax q0 [l Hl]%reachable_rep <- ops.
    by apply (rep_run_total ops q0 l).
Qed.

(** C2.  Length accounting.  After any sequence of calls performed on a
    fresh queue, with E enqueues and D' dequeues that found an item, D' is
    at most E, the [len] field is E - D' and [Len] returns it.  With a
    capacity that [make] accepts every sequence of calls is performed. *)
Theorem length_accounting (c : Z) (ops : list op) :
  (forall q es,
     run ops (New c) = Ret (q, es) ->
     (length (dequeued es) <= length (enqueued ops))%nat /\
     len q =
       Z.of_nat (length (enqueued ops)) - Z.of_nat (length (dequeued es)) /\
     Len q =
       Ret (q, Z.of_nat (length (enqueued ops)) -
               Z.of_nat (length (dequeued es)))) /\
  (0 <= c -> Z.max 1 c <= max_cap iface ->
   exists q es, run ops (New c) = Ret (q, es)).
Proof.
  split.
  - intros q es E.
    destruct (rep_run_ret ops (New c) [] q es (rep_pristine c 0) E)
      as (l' & Hq & _ & Hfifo).
    cbn [app] in Hfifo.
    assert (length (enqueued ops) = (length (dequeued es) + length l')%nat)
      as Hn by (by rewrite Hfifo, length_app).
    assert (len q =
            Z.of_nat (length (enqueued ops)) - Z.of_nat (length (dequeued es)))
      as Hlen by (rewrite (rep_len _ _ Hq); lia).
    split_and!; [lia|done|].
    rewrite Len_unlocked by eauto using rep_mut. by rewrite Hlen.
  - intros Hc Hmax. by apply (rep_run_total ops (New c) []); [constructor|..].
Qed.

Lemma drained_reachable c xs q es :
  run (map OpEnqueue xs ++ replicate (length xs) OpDequeue) (New c) =
    Ret (q, es) ->
  reachable q /\ len q = 0 /\ Capacity q = c.
Proof.
  intros E.
  destruct (fifo_from (New c) [] xs q es (rep_pristine c 0) E) as (_ & Hq & HC).
  split_and!; [|by rewrite (rep_len _ _ Hq)|done].
  eapply run_reachable; [apply reach_New|exact E].
Qed.

(** C3 (as amended).  Whenever the length of a reachable queue is 0 (so
    after enqueuing K items and dequeuing all K, see [drained_reachable]),
    the chunk sequence has no chunk, the read offset and both chunk indices
    are 0, the mutex is free, and every later run reports exactly what it
    reports on a fresh queue of the same capacity.  The state is the fresh
    one except for the capacity the chunk sequence keeps. *)
Theorem return_to_pristine (q : Queue) :
  reachable q -> len q = 0 ->
  elems (items q) = [] /\ rx q = 0 /\ ry q = 0 /\ w q = 0 /\ mut q = false /\
  same_layout q (New (Capacity q)) /\
  forall ops, snd <$> run ops q = snd <$> run ops (New (Capacity q)).
Proof.
  intros Hq Hz. destruct (reachable_empty _ Hq Hz) as [k Hk].
  assert (same_layout q (New (Capacity q))) as Hsame by (by rewrite Hk).
  split_and!; try (by rewrite Hk); try done.
  intros ops. by apply same_layout_observe.
Qed.

(** C4.  Empty contract.  On a reachable queue of length 0, fresh or
    drained, [Dequeue] returns nil and leaves the whole state as it was,
    and [Len] still returns 0. *)
Theorem empty_contract (q : Queue) :
  reachable q -> len q = 0 ->
  Dequeue q = Ret (q, nil) /\ Len q = Ret (q, 0).
Proof.
  intros Hq Hz. destruct (reachable_rep _ Hq) as [l Hl].
  assert (l = []) as ->.
  { rewrite (rep_len _ _ Hl) in Hz. by destruct l. }
  split; [by apply rep_Dequeue_nil|].
  rewrite Len_unlocked by eauto using rep_mut. by rewrite Hz.
Qed.

Lemma index_range {T} (s : slice T) (i : Z) (x : T) :
  index s i = Ret x -> 0 <= i < slen s /\ elems s !! Z.to_nat i = Some x.
Proof.
  unfold index.
  destruct (Z.leb_spec 0 i), (Z.ltb_spec i (slen s)); cbn; try done.
  destruct (elems s !! Z.to_nat i); [|done]. by intros [= ->].
Qed.

Lemma rep_write_chunk q l :
  rep q l -> slen (items q) <> 0 -> slen (items q) <> w q ->
  exists c, index (items q) (w q) = Ret c.
Proof.
  destruct 1; cbn [items w]; rewrite slen_Slice; cbn [length];
    intros Hzero Hw; try lia; eexists;
    first [apply index_head | apply index_second].
Qed.

Lemma rep_front q x l :
  rep q (x :: l) ->
  exists c, index (items q) (ry q) = Ret c /\ elems c <> [] /\
            index c (rx q) = Ret x.
Proof.
  intros Hrep. inversion Hrep; subst; clear Hrep;
    try match goal with
        | H : x :: l = ?post ++ _ |- _ =>
            destruct post as [|? post']; [done|]; simplify_eq/=
        end.
  all: eexists; split_and!;
    [ first [apply index_head | apply index_second]
    | cbn [elems]; first [done | by destruct pre]
    | first [apply index_head | by apply index_mid] ].
Qed.

(** C5 (as amended).  The enqueue algorithm.  On a reachable queue whose
    configured capacity is not negative and, normalized to a minimum of 1,
    not above the largest capacity [make] accepts, [Enqueue] returns, adds
    1 to the length and touches no index.  When there is no chunk, or the
    write index equals the number of chunks, the chunk sequence gains one
    chunk holding only the item, of capacity max(1, Capacity); otherwise
    the item is appended to the chunk at the write index. *)
Theorem enqueue_algorithm (q : Queue) (item : iface) :
  reachable q -> 0 <= Capacity q -> Z.max 1 (Capacity q) <= max_cap iface ->
  exists q',
    Enqueue q item = Ret q' /\
    len q' = len q + 1 /\
    Capacity q' = Capacity q /\ rx q' = rx q /\ ry q' = ry q /\
    w q' = w q /\ mut q' = mut q /\
    if (slen (items q) =? 0) || (slen (items q) =? w q) then
      elems (items q') =
        elems (items q) ++ [Slice [item] (Z.max 1 (Capacity q))]
    else
      exists c c',
        elems (items q) !! Z.to_nat (w q) = Some c /\
        elems c' = elems c ++ [item] /\
        elems (items q') = <[Z.to_nat (w q) := c']> (elems (items q)).
Proof.
  intros Hq HC HM. destruct (reachable_rep _ Hq) as [l Hl].
  pose proof (rep_mut _ _ Hl) as Hm.
  destruct ((slen (items q) =? 0) || (slen (items q) =? w q)) eqn:Hcond.
  - rewrite Enqueue_new_chunk; [|done|].
    2:{ apply orb_true_iff in Hcond. destruct Hcond; [left|right]; lia. }
    cbn zeta.
    assert ((if Capacity q =? 0 then 1 else Capacity q) = Z.max 1 (Capacity q))
      as -> by (destruct (Z.eqb_spec (Capacity q) 0); lia).
    destruct (Z.ltb_spec (Z.max 1 (Capacity q)) 1); [lia|].
    destruct (Z.ltb_spec (max_cap iface) (Z.max 1 (Capacity q))); [lia|].
    cbn [orb]. eexists. split; [reflexivity|]. cbn. by rewrite Hm.
  - apply orb_false_iff in Hcond as [H0 Hw].
    apply Z.eqb_neq in H0, Hw.
    destruct (rep_write_chunk _ _ Hl H0 Hw) as [c Hc].
    rewrite (Enqueue_open_chunk _ _ c) by done.
    eexists. split; [reflexivity|]. cbn. rewrite Hm. split_and!; try done.
    exists c, (append c item). by destruct (index_range _ _ _ Hc) as [_ ->].
Qed.

(** C6 (as amended).  Mid-drain write redirection.  A [dequeue] that
    takes an item which is not the last one of the read chunk adds 1 to
    the read offset, keeps the chunks and the read chunk index, and
    touches the write index only when it equals the read chunk index: it
    then becomes 0 if it was nonzero and [ry + 1] otherwise.  Apart from
    that, the write index changes only when the read chunk is drained and
    the queue is reset; a [dequeue] that finds nothing changes nothing.

    After a redirection to [ry + 1] the next [Enqueue], once the mutex is
    released, allocates a chunk only if the read chunk was the last one:
    it then appends a chunk holding the item alone, or panics in [make]
    over the capacity.  If a chunk exists at [ry + 1] already, the
    [Enqueue] appends the item to that chunk and the number of chunks
    stays as it was. *)
Theorem mid_drain_redirect (q q' : Queue) (val : iface) (ok : bool) :
  dequeue q = Ret (q', (val, ok)) ->
  if ok then
    exists c,
      index (items q) (ry q) = Ret c /\ index c (rx q) = Ret val /\
      if slen c =? rx q + 1 then
        rx q' = 0 /\ (if len q - 1 =? 0 then w q' = 0 else w q' = w q)
      else
        rx q' = rx q + 1 /\ ry q' = ry q /\ items q' = items q /\
        w q' = (if w q =? ry q then (if w q =? 0 then ry q + 1 else 0)
                else w q) /\
        (w q = ry q -> w q = 0 -> forall item,
           match Enqueue (set_mut q' false) item with
           | Ret q'' =>
               if slen (items q) =? ry q + 1 then
                 items q'' =
                   append (items q) (Slice [item] (Z.max 1 (Capacity q)))
               else
                 exists c1,
                   index (items q) (ry q + 1) = Ret c1 /\
                   items q'' =
                     Slice (<[Z.to_nat (ry q + 1) := append c1 item]>
                              (elems (items q)))
                           (cap (items q))
           | Panic =>
               slen (items q) = ry q + 1 /\
               (Capacity q < 0 \/ max_cap iface < Z.max 1 (Capacity q))
           | _ => False
           end)
  else q' = q.
Proof.
  destruct ok; [|by intros [-> _]%dequeue_miss].
  destruct (Z.eqb_spec (slen (items q)) 0) as [H0|H0];
    [by rewrite dequeue_no_chunk|].
  destruct (index (items q) (ry q)) as [c| | |] eqn:Hc.
  2-4: by unfold dequeue; rewrite Hc; destruct (slen (items q) =? 0).
  destruct (Z.eqb_spec (slen c) 0) as [Hn|Hn];
    [by rewrite (dequeue_empty_chunk _ c)|].
  destruct (index c (rx q)) as [v| | |] eqn:Hv.
  2-4: by unfold dequeue; rewrite Hc; destruct (slen (items q) =? 0);
         cbn; try done; destruct (slen c =? 0); cbn; try done; rewrite Hv.
  rewrite (dequeue_item _ c v) by done. intros [= <- <-].
  exists c. split_and!; [done..|].
  destruct (slen c =? rx q + 1).
  - cbn zeta. by destruct (len q - 1 =? 0).
  - destruct (index_range _ _ _ Hc) as [Hry _].
    cbn [rx ry items w]. split_and!; [done| done | done | |].
    { destruct (Z.eqb_spec (w q) (ry q)) as [Heq|]; [|done].
      destruct (Z.ltb_spec 0 (w q)), (Z.eqb_spec (w q) 0); lia. }
    intros Heq Hz item.
    replace (if w q =? ry q then if 0 <? w q then 0 else ry q + 1 else w q)
      with (ry q + 1)
      by (destruct (Z.eqb_spec (w q) (ry q)), (Z.ltb_spec 0 (w q)); lia).
    destruct (Z.eqb_spec (slen (items q)) (ry q + 1)) as [Hlast|Hmore].
    + rewrite Enqueue_new_chunk; [|done|by right].
      cbn [set_mut Capacity items len rx ry w]. cbv zeta.
      set (k := if Capacity q =? 0 then 1 else Capacity q).
      assert (0 <= Capacity q /\ k = Z.max 1 (Capacity q) \/
              Capacity q < 0 /\ k < 1) as Hk.
      { subst k. destruct (Z.eqb_spec (Capacity q) 0); lia. }
      destruct (Z.ltb_spec k 1); destruct (Z.ltb_spec (max_cap iface) k);
        cbn [orb items]; try (split; [done|lia]).
      destruct Hk as [[_ ->]|?]; [done|lia].
    + assert (exists c1, index (items q) (ry q + 1) = Ret c1) as [c1 Hc1].
      { unfold index. rewrite in_range by lia.
        destruct (lookup_lt_is_Some_2 (elems (items q)) (Z.to_nat (ry q + 1)))
          as [c1 ->]; [unfold slen in *; lia|by eexists]. }
      rewrite (Enqueue_open_chunk _ _ c1); [|done|done|cbn; lia|done].
      cbn [set_mut Capacity items len rx ry w]. by exists c1.
Qed.

(** C7.  Blocking dequeue refines dequeue.  From any state whose length is
    positive, whatever the timeout, the interval and the schedule,
    [DequeueBlocking] ends as [Dequeue] does: same item, same state. *)
Theorem blocking_refines_dequeue (timeout interval latency now : Z)
    (sched : list cycle) (q : Queue) :
  0 < len q ->
  fst <$> DequeueBlocking timeout interval latency sched now q = Dequeue q.
Proof.
  intros Hn. unfold DequeueBlocking.
  destruct (mut q) eqn:Hm.
  - rewrite Dequeue_locked by done. unfold Lock. by rewrite Hm.
  - rewrite lock_unlocked by done. mred. cbn zeta.
    rewrite poll_ready by (done || lia).
    by destruct (Dequeue q) as [[]| | |].
Qed.

(** C8.  Timeout bound of the blocking dequeue.  Take a timeout T > 0 on a
    reachable empty queue, the call starting at time [now].  Whatever the
    schedule, the call returns only in two ways: the timer was readable
    (nil, no earlier than now + T, mutex free, queue still empty), or some
    reachable state of positive length was dequeued.  While no other
    goroutine enqueues it returns nil only, not before now + T and with
    the queue unchanged; and once the clock advances at every poll it does
    return, within T + latency polls. *)
Theorem blocking_timeout_bound (T interval latency now : Z) (q : Queue) :
  0 < T -> 0 <= latency -> reachable q -> len q = 0 ->
  (forall sched q' val t,
     DequeueBlocking T interval latency sched now q = Ret (q', val, t) ->
     (val = nil /\ now + T <= t /\ mut q' = false /\ len q' = 0) \/
     (exists qk, reachable qk /\ 0 < len qk /\ Dequeue qk = Ret (q', val))) /\
  (forall sched q' val t,
     Forall no_producer sched ->
     DequeueBlocking T interval latency sched now q = Ret (q', val, t) ->
     val = nil /\ q' = q /\ now + T <= t) /\
  (forall sched,
     Forall no_producer sched -> Forall ticking sched ->
     T + latency <= Z.of_nat (length sched) ->
     exists t,
       DequeueBlocking T interval latency sched now q = Ret (q, nil, t) /\
       now + T <= t).
Proof.
  intros HT Hlat Hq Hz. pose proof (reachable_mut _ Hq) as Hm.
  unfold DequeueBlocking. rewrite lock_unlocked by done. mred.
  destruct (Z.ltb_spec 0 T) as [_|?]; [|lia]. cbn zeta.
  split_and!.
  - intros sched q' val t [Hx|Hx]%poll_exits; [|by right|done].
    left. destruct Hx as (tm & [= <-] & Hr & -> & ? & ?).
    apply Z.leb_le in Hr. cbn in Hr. split_and!; [done|lia|done..].
  - intros sched q' val t Hquiet (-> & -> & tm & [= <-] & Hr)%poll_quiet_exit;
      try done.
    cbn in Hr. split_and!; [done..|lia].
  - intros sched Hquiet Htick Hlen.
    destruct (poll_quiet_returns (NewTimer now latency T) interval sched now q)
      as (t & E & Ht); try done.
    + destruct sched; cbn [length] in *; lia.
    + cbn. lia.
    + exists t. split; [done|]. cbn in Ht. lia.
Qed.

(** C9.  Two-chunk bound.  In every reachable state the chunk sequence has
    at most two chunks and both chunk indices are 0 or 1. *)
Theorem two_chunk_bound (q : Queue) :
  reachable q ->
  (length (elems (items q)) <= 2)%nat /\
  (w q = 0 \/ w q = 1) /\ (ry q = 0 \/ ry q = 1).
Proof. intros [l Hl]%reachable_rep. eauto using rep_bound. Qed.

(** C10 (as amended).  Non-empty success.  In every reachable state of
    positive length there is a chunk at the read chunk index, it is not
    empty, the underlying [dequeue] succeeds and [Dequeue] returns the item
    stored at the read position, taking 1 off the length.  What [Dequeue]
    returns is therefore nil exactly when that stored item is nil; and the
    underlying [dequeue] fails if and only if the length is 0. *)
Theorem nonempty_success (q : Queue) :
  reachable q ->
  (succeeds q = false <-> len q = 0) /\
  (0 < len q ->
   elems (items q) <> [] /\
   exists c x q',
     index (items q) (ry q) = Ret c /\ elems c <> [] /\
     index c (rx q) = Ret x /\
     Dequeue q = Ret (q', x) /\ succeeds q = true /\ len q' = len q - 1).
Proof.
  intros [l Hl]%reachable_rep. pose proof (rep_len _ _ Hl) as Hlen.
  destruct l as [|x l].
  - destruct (rep_Dequeue_nil _ Hl) as [_ Hs]. cbn in Hlen.
    split; [done|lia].
  - destruct (rep_Dequeue_cons _ _ _ Hl) as (q' & E & Hs & Hq' & _).
    destruct (rep_front _ _ _ Hl) as (c & Hc & Hne & Hx).
    cbn [length] in Hlen. split; [split; [congruence|lia]|].
    intros _. split.
    + destruct (index_range _ _ _ Hc) as [_ Hlk]. by intros Hnil; rewrite Hnil in Hlk.
    + exists c, x, q'. split_and!; try done.
      rewrite (rep_len _ _ Hq'). lia.
Qed.

(** ** Further properties of the package *)

(** Every call on a reachable queue returns when the capacity is one that
    [make] accepts (not negative and, normalized to a minimum of 1, not
    above the limit): no index is ever out of range and the mutex is free
    between calls. *)
Theorem calls_return (q : Queue) (ops : list op) :
  reachable q -> 0 <= Capacity q -> Z.max 1 (Capacity q) <= max_cap iface ->
  exists q' es, run ops q = Ret (q', es) /\ reachable q'.
Proof.
  intros Hq HC HM. destruct (reachable_rep _ Hq) as [l Hl].
  destruct (rep_run ops q l Hl HC HM) as (q' & es & _ & E & _).
  exists q', es. split; [done|]. by eapply run_reachable.
Qed.

(** A timeout that is zero or negative never expires: no timer is made,
    and a blocking dequeue on a queue that stays empty is still polling at
    the end of every schedule. *)
Theorem blocking_waits_forever (timeout interval latency now : Z)
    (sched : list cycle) (q : Queue) :
  timeout <= 0 ->
  reachable q -> len q = 0 -> Forall no_producer sched ->
  DequeueBlocking timeout interval latency sched now q = Pending.
Proof.
  intros HT Hq Hz Hquiet. unfold DequeueBlocking.
  rewrite lock_unlocked by auto using reachable_mut. mred.
  destruct (Z.ltb_spec 0 timeout); [lia|]. cbv beta iota zeta.
  by apply poll_quiet_forever.
Qed.

(** *** The queue as a list *)

Lemma index_none {T} (l : list T) (k i : Z) :
  Z.of_nat (length l) <= i -> index (Slice l k) i = Panic.
Proof.
  intros Hi. unfold index, slen. cbn [elems].
  destruct (Z.leb_spec 0 i), (Z.ltb_spec i (Z.of_nat (length l)));
    cbn; try done; lia.
Qed.

Lemma rep_contents q l : rep q l -> contents q = l.
Proof.
  destruct 1; subst; unfold contents, chunk_at; cbn [items rx ry w];
    rewrite ?index_head, ?index_second, ?index_none by (cbn; lia);
    cbn [elems Z.eqb]; rewrite ?Nat2Z.id, ?drop_app_length;
    cbn [Z.to_nat drop]; by rewrite ?app_nil_r.
Qed.

(** The queue refines a list.  In every reachable state the length field
    counts [contents]; an [Enqueue] that returns has added the item at its
    end, and an [Enqueue] that does not return has panicked in [make] over
    the capacity; a [Dequeue] returns and removes the first item, or
    returns nil and changes nothing when there is none. *)
Theorem queue_refines_list (q : Queue) :
  reachable q ->
  len q = Z.of_nat (length (contents q)) /\
  (forall item,
     match Enqueue q item with
     | Ret q' => contents q' = contents q ++ [item]
     | Panic => Capacity q < 0 \/ max_cap iface < Z.max 1 (Capacity q)
     | _ => False
     end) /\
  match contents q with
  | [] => Dequeue q = Ret (q, nil)
  | x :: l => exists q', Dequeue q = Ret (q', x) /\ contents q' = l
  end.
Proof.
  intros [l Hl]%reachable_rep. rewrite (rep_contents _ _ Hl).
  split_and!.
  - by apply rep_len.
  - intros item. pose proof (rep_Enqueue q l item Hl) as HE.
    destruct (Enqueue q item) as [q'| | |]; try done.
    apply rep_contents. tauto.
  - destruct l as [|x l].
    + by apply rep_Dequeue_nil.
    + destruct (rep_Dequeue_cons _ _ _ Hl) as (q' & E & _ & Hq' & _).
      exists q'. split; [done|]. by apply rep_contents.
Qed.

(** Reads and writes share a chunk only while nothing of it has been
    consumed: in every reachable state with [w = ry] the read offset is 0
    and every other chunk is empty, so an item appended to the write chunk
    always lands behind all stored items. *)
Theorem shared_chunk_unconsumed (q : Queue) :
  reachable q -> w q = ry q ->
  rx q = 0 /\
  forall (i : nat) c,
    elems (items q) !! i = Some c -> Z.of_nat i <> ry q -> elems c = [].
Proof.
  intros [l Hl]%reachable_rep. destruct Hl; cbn [w ry rx items elems];
    intros Hw; try done; (split; [done|]); intros [|[|i]] c; cbn;
    intros [= <-] Hi; try done; lia.
Qed.

(** A blocking dequeue without timer wakes with the oldest item.  It
    starts on an empty reachable queue and polls idly; as soon as the calls
    other goroutines complete during one cycle leave items in the queue,
    it returns the first of them and leaves the rest. *)
Theorem blocking_wakes_on_enqueue (timeout interval latency now : Z)
    (idle rest : list cycle) (g o : Z) (ops : list op)
    (q q2 : Queue) (es : list event) (x : iface) (l : list iface) :
  timeout <= 0 ->
  reachable q -> len q = 0 -> Forall no_producer idle ->
  run ops q = Ret (q2, es) -> contents q2 = x :: l ->
  exists q' t,
    DequeueBlocking timeout interval latency
      (idle ++ mkCycle g o ops :: rest) now q =
    Ret (q', x, t) /\ contents q' = l.
Proof.
  intros HT Hq Hz Hquiet Hrun Hx. pose proof (reachable_mut _ Hq) as Hm.
  unfold DequeueBlocking. rewrite lock_unlocked by done. mred.
  destruct (Z.ltb_spec 0 timeout); [lia|]. cbv beta iota zeta.
  revert now.
  induction Hquiet as [|c idle Hc _ IH]; intros now; cbn [app].
  - rewrite poll_cycle by done. cbn [others gap oversleep].
    unfold interfere. rewrite Hrun. mred.
    pose proof (run_reachable _ _ _ _ Hq Hrun) as Hq2.
    destruct (reachable_rep _ Hq2) as [l2 Hl2].
    rewrite (rep_contents _ _ Hl2) in Hx. subst l2.
    rewrite lock_unlocked by eauto using rep_mut. mred.
    rewrite poll_ready; [|eauto using rep_mut|by rewrite (rep_len _ _ Hl2)].
    destruct (rep_Dequeue_cons _ _ _ Hl2) as (q' & -> & _ & Hq' & _).
    eexists _, _. split; [reflexivity|]. by apply rep_contents.
  - rewrite poll_cycle by done.
    rewrite quiet_interfere by done. mred.
    rewrite lock_unlocked by done. mred. apply IH.
Qed.

(** *** When Enqueue panics *)

(** On a reachable queue [Enqueue] either returns or panics, and it
    panics exactly when it has to make a chunk (there is none, or the
    write index is past the last one) and [make] refuses the capacity:
    [Capacity] is negative or, normalized to a minimum of 1, above the
    limit.  With a chunk open for writing it returns whatever [Capacity]
    is. *)
Theorem enqueue_panics_exactly (q : Queue) (item : iface) :
  reachable q ->
  (Enqueue q item = Panic <->
   (slen (items q) = 0 \/ slen (items q) = w q) /\
   (Capacity q < 0 \/ max_cap iface < Z.max 1 (Capacity q))) /\
  (Enqueue q item <> Panic -> exists q', Enqueue q item = Ret q').
Proof.
  intros [l Hl]%reachable_rep. pose proof (rep_mut _ _ Hl) as Hm.
  destruct ((slen (items q) =? 0) || (slen (items q) =? w q)) eqn:Hcond.
  - assert (slen (items q) = 0 \/ slen (items q) = w q) as Hnew.
    { apply orb_true_iff in Hcond. destruct Hcond; [left|right]; lia. }
    rewrite Enqueue_new_chunk by done. cbv zeta.
    set (c := if Capacity q =? 0 then 1 else Capacity q).
    assert (0 <= Capacity q /\ c = Z.max 1 (Capacity q) \/
            Capacity q < 0 /\ c < 1) as Hc.
    { subst c. destruct (Z.eqb_spec (Capacity q) 0); lia. }
    destruct (Z.ltb_spec c 1); destruct (Z.ltb_spec (max_cap iface) c);
      cbn [orb].
    + split; [split; [intros _; split; [done|lia]|done]|done].
    + split; [split; [intros _; split; [done|lia]|done]|done].
    + split; [split; [intros _; split; [done|lia]|done]|done].
    + split; [split; [done|intros [_ ?]; lia]|intros _; by eexists].
  - apply orb_false_iff in Hcond as [H0 Hw].
    apply Z.eqb_neq in H0, Hw.
    destruct (rep_write_chunk _ _ Hl H0 Hw) as [c Hc].
    rewrite (Enqueue_open_chunk _ _ c) by done.
    split; [split; [done|intros [[?|?] _]; lia]|intros _; by eexists].
Qed.

(** *** The mutex and the configured capacity, from any state *)

Lemma dequeue_Capacity q q' r : dequeue q = Ret (q', r) -> Capacity q' = Capacity q.
Proof.
  destruct q as [C its n m r0 y w']. unfold dequeue. cbn.
  destruct (slen its =? 0); cbn; [by intros [= <- _]|].
  destruct (index its y) as [c| | |]; cbn; try done.
  destruct (slen c =? 0); cbn; [by intros [= <- _]|].
  destruct (index c r0); cbn; try done.
  destruct (slen c =? r0 + 1).
  - destruct (store its y (truncate c)); cbn; try done.
    by destruct (n - 1 =? 0); intros [= <- _].
  - destruct (w' =? y); [destruct (0 <? w')|]; by intros [= <- _].
Qed.

Lemma Enqueue_frame q item q' :
  Enqueue q item = Ret q' ->
  mut q = false /\ mut q' = false /\ Capacity q' = Capacity q.
Proof.
  destruct q as [C its n m r y w']. unfold Enqueue, Lock, Unlock. cbn.
  destruct m; cbn; [done|].
  destruct ((slen its =? 0) || (slen its =? w')); cbn.
  - destruct (newSlice _ _); cbn; try done. by intros [= <-].
  - destruct (index its w'); cbn; try done.
    destruct (store its w' _); cbn; try done. by intros [= <-].
Qed.

Lemma Dequeue_frame q q' val :
  Dequeue q = Ret (q', val) ->
  mut q = false /\ mut q' = false /\ Capacity q' = Capacity q.
Proof.
  unfold Dequeue, Lock, Unlock. destruct (mut q) eqn:Hm; cbn; [done|].
  destruct (dequeue (set_mut q true)) as [[q1 [v ok]]| | |] eqn:E;
    cbn; try done.
  apply dequeue_Capacity in E. destruct (mut q1); cbn; [|done].
  intros [= <- _]. by destruct q.
Qed.

Lemma Len_frame q q' n : Len q = Ret (q', n) -> mut q = false /\ q' = q.
Proof.
  unfold Len, Lock, Unlock. destruct (mut q) eqn:Hm; cbn; [done|].
  intros [= <- _]. by rewrite unlock_lock.
Qed.

Lemma run_frame ops : forall q q' es,
  run ops q = Ret (q', es) ->
  mut q' = mut q /\ Capacity q' = Capacity q /\ (ops <> [] -> mut q = false).
Proof.
  induction ops as [|o ops IH]; intros q q' es; cbn.
  - by intros [= <- _].
  - destruct (run_op o q) as [[q1 e]| | |] eqn:E; cbn; try done.
    destruct (run ops q1) as [[q2 es2]| | |] eqn:E2; cbn; try done.
    intros [= <- _]. destruct (IH _ _ _ E2) as (Hm & HC & _).
    rewrite Hm, HC. clear IH E2 Hm HC.
    destruct o as [item| |]; cbn in E.
    + destruct (Enqueue q item) as [qe| | |] eqn:Ee; simplify_eq/=.
      destruct (Enqueue_frame _ _ _ Ee) as (-> & -> & ->). done.
    + destruct (Dequeue q) as [[qd v]| | |] eqn:Ed; simplify_eq/=.
      destruct (Dequeue_frame _ _ _ Ed) as (-> & -> & ->). done.
    + destruct (Len q) as [[ql n]| | |] eqn:El; simplify_eq/=.
      destruct (Len_frame _ _ _ El) as [Hmq Heq]. by rewrite Heq.
Qed.

Lemma poll_frame timer interval sched : forall now q q' val t,
  mut q = true ->
  poll timer interval sched now q = Ret (q', val, t) ->
  mut q' = false /\ Capacity q' = Capacity q.
Proof.
  induction sched as [|c sched IH]; intros now q q' val t Hm; cbn [poll].
  - destruct (len q =? 0).
    + unfold Unlock. by rewrite Hm.
    + destruct (dequeue q) as [[q1 [v ok]]| | |] eqn:E; mred; try done.
      pose proof (dequeue_mut _ _ _ E) as Hm1.
      apply dequeue_Capacity in E. unfold Unlock. rewrite Hm1, Hm. mred.
      by intros [= <- _ _].
  - destruct (len q =? 0).
    + unfold Unlock. rewrite Hm. mred.
      destruct (match timer with
                | Some tm => readable tm (now + gap c)
                | None => false
                end); [by intros [= <- _ _]|].
      unfold interfere.
      destruct (run (others c) (set_mut q false)) as [[q2 es]| | |] eqn:Hrun;
        mred; try done.
      destruct (run_frame _ _ _ _ Hrun) as (Hm2 & HC2 & _).
      cbn [mut set_mut Capacity] in Hm2, HC2.
      unfold Lock. rewrite Hm2. mred. intros Hp.
      apply IH in Hp; [|done]. cbn [Capacity set_mut] in Hp.
      by rewrite HC2 in Hp.
    + destruct (dequeue q) as [[q1 [v ok]]| | |] eqn:E; mred; try done.
      pose proof (dequeue_mut _ _ _ E) as Hm1.
      apply dequeue_Capacity in E. unfold Unlock. rewrite Hm1, Hm. mred.
      by intros [= <- _ _].
Qed.

(** No method keeps the mutex.  From any state whatever, a run of
    [Enqueue], [Dequeue] and [Len] calls that returns started with the
    mutex free, leaves it free, and leaves [Capacity] as it was. *)
Theorem calls_release_mutex (ops : list op) (q q' : Queue) (es : list event) :
  run ops q = Ret (q', es) -> ops <> [] ->
  mut q = false /\ mut q' = false /\ Capacity q' = Capacity q.
Proof.
  intros E Hne. destruct (run_frame _ _ _ _ E) as (Hm & HC & H0).
  specialize (H0 Hne). by rewrite Hm, H0.
Qed.

(** Neither does the blocking dequeue.  From any state and under any
    schedule, a [DequeueBlocking] that returns, with an item or on
    timeout, has released the mutex exactly as often as it acquired it and
    has left [Capacity] as it was. *)
Theorem blocking_releases_mutex (timeout interval latency now : Z)
    (sched : list cycle) (q q' : Queue) (val : iface) (t : Z) :
  DequeueBlocking timeout interval latency sched now q = Ret (q', val, t) ->
  mut q = false /\ mut q' = false /\ Capacity q' = Capacity q.
Proof.
  unfold DequeueBlocking, Lock. destruct (mut q) eqn:Hm; mred; [done|].
  cbv zeta. intros [Hm' HC]%poll_frame; [|done]. by destruct q.
Qed.

(** *** Blocking dequeues under interference *)

Lemma poll_safe timer interval sched : forall now q,
  reachable q -> 0 <= Capacity q -> Z.max 1 (Capacity q) <= max_cap iface ->
  match poll timer interval sched now (set_mut q true) with
  | Ret (q', _, _) => reachable q'
  | Pending => True
  | _ => False
  end.
Proof.
  induction sched as [|c sched IH]; intros now q Hq HC HM;
    pose proof (reachable_mut _ Hq) as Hm;
    (destruct (Z.eq_dec (len q) 0) as [Hz|Hnz];
     [|rewrite poll_ready by done;
       destruct (reachable_rep _ Hq) as [[|x l] Hl];
       [by rewrite (rep_len _ _ Hl) in Hnz|];
       destruct (rep_Dequeue_cons _ _ _ Hl) as (q1 & E & _);
       rewrite E; cbn; by eapply reach_Dequeue]).
  - by rewrite poll_idle.
  - rewrite poll_cycle by done.
    destruct (match timer with
              | Some tm => readable tm (now + gap c)
              | None => false
              end); [done|].
    destruct (reachable_rep _ Hq) as [l Hl].
    destruct (rep_run (others c) q l Hl HC HM)
      as (q2 & es & l2 & E & Hl2 & HC2 & _).
    unfold interfere. rewrite E. mred.
    rewrite lock_unlocked by eauto using rep_mut. mred.
    apply IH; [by eapply run_reachable|lia|by rewrite HC2].
Qed.

(** Whatever other goroutines enqueue and dequeue between the polls, a
    blocking dequeue on a reachable queue whose capacity [make] accepts
    (not negative and, normalized to a minimum of 1, within the limit)
    never panics and never waits on the mutex: it returns, in a reachable
    state, or is still polling when the schedule ends. *)
Theorem blocking_is_safe (timeout interval latency now : Z)
    (sched : list cycle) (q : Queue) :
  reachable q -> 0 <= Capacity q -> Z.max 1 (Capacity q) <= max_cap iface ->
  match DequeueBlocking timeout interval latency sched now q with
  | Ret (q', _, _) => reachable q'
  | Pending => True
  | _ => False
  end.
Proof.
  intros Hq HC HM. unfold DequeueBlocking.
  rewrite lock_unlocked by auto using reachable_mut. mred. cbv zeta.
  by apply poll_safe.
Qed.

Lemma DequeueBlocking_ready timeout interval latency sched now q :
  mut q = false -> len q <> 0 ->
  DequeueBlocking timeout interval latency sched now q =
    (fun r => (r, now)) <$> Dequeue q.
Proof.
  intros Hm Hn. unfold DequeueBlocking. rewrite lock_unlocked by done. mred.
  cbv zeta. by apply poll_ready.
Qed.

Lemma rep_DequeueBlocking_each l : forall calls now q,
  rep q l -> length calls = length l ->
  exists q',
    DequeueBlocking_each calls now q = Ret (q', l, now) /\ rep q' [].
Proof.
  induction l as [|x l IH]; intros [|c calls] now q Hl Hn; try done; cbn.
  - by exists q.
  - rewrite DequeueBlocking_ready;
      [|eauto using rep_mut|by rewrite (rep_len _ _ Hl)].
    destruct (rep_Dequeue_cons _ _ _ Hl) as (q1 & -> & _ & H1 & _). cbn.
    destruct (IH calls now q1 H1) as (q' & -> & Hq'); [by injection Hn|].
    by exists q'.
Qed.

(** Blocking dequeues drain in order and at once.  On a reachable queue,
    as many [DequeueBlocking] calls as there are stored items, with any
    timeouts, intervals and schedules, return exactly the stored items,
    oldest first, without any time passing, and leave the queue empty. *)
Theorem blocking_drains_in_order (calls : list blocking_call) (now : Z)
    (q : Queue) :
  reachable q -> length calls = length (contents q) ->
  exists q',
    DequeueBlocking_each calls now q = Ret (q', contents q, now) /\
    len q' = 0.
Proof.
  intros [l Hl]%reachable_rep. rewrite (rep_contents _ _ Hl). intros Hn.
  destruct (rep_DequeueBlocking_each l calls now q Hl Hn) as (q' & E & Hq').
  exists q'. split; [done|]. by rewrite (rep_len _ _ Hq').
Qed.

Lemma poll_quiet_deadline tm interval sched G O : forall now q q' val t,
  reachable q -> len q = 0 -> 0 <= O ->
  Forall no_producer sched ->
  Forall (fun c => gap c <= G /\ oversleep c <= O) sched ->
  now < fires_at tm + Z.max 0 interval + O ->
  poll (Some tm) interval sched now (set_mut q true) = Ret (q', val, t) ->
  t < fires_at tm + Z.max 0 interval + O + G.
Proof.
  induction sched as [|c sched IH];
    intros now q q' val t Hq Hz HO Hquiet Hbound Hnow;
    pose proof (reachable_mut _ Hq) as Hm; [by rewrite poll_idle|].
  inversion_clear Hquiet as [|? ? Hc Hrest].
  inversion_clear Hbound as [|? ? [Hgap Hover] Hbounds].
  rewrite poll_cycle by done. unfold readable.
  destruct (Z.leb_spec (fires_at tm) (now + gap c)) as [Hf|Hf].
  - intros [= _ _ <-]. lia.
  - rewrite quiet_interfere by done. mred.
    rewrite lock_unlocked by done. mred.
    apply IH; try done.
    destruct (Z.ltb_spec 0 interval); lia.
Qed.

(** How late a timeout can be.  On a queue that stays empty, if every
    poll cycle inspects the timer within [G] of the loop head and every
    sleep overshoots by at most [O], a [DequeueBlocking] with timeout
    T > 0 that returns does so less than [interval + O + G] after the
    timer became readable, that is before
    [now + T + latency + max 0 interval + O + G]. *)
Theorem blocking_timeout_latency (T interval latency now G O : Z)
    (sched : list cycle) (q q' : Queue) (val : iface) (t : Z) :
  0 < T -> 0 <= latency -> 0 <= O ->
  reachable q -> len q = 0 ->
  Forall no_producer sched ->
  Forall (fun c => gap c <= G /\ oversleep c <= O) sched ->
  DequeueBlocking T interval latency sched now q = Ret (q', val, t) ->
  t < now + T + latency + Z.max 0 interval + O + G.
Proof.
  intros HT Hlat HO Hq Hz Hquiet Hbound. unfold DequeueBlocking.
  rewrite lock_unlocked by auto using reachable_mut. mred.
  destruct (Z.ltb_spec 0 T) as [_|?]; [|lia]. cbv zeta.
  intros Hp.
  eapply (poll_quiet_deadline _ _ _ G O) in Hp; try done; cbn in *; lia.
Qed.

Lemma poll_delivers timer interval G O idle rest g o ops q q2 es x l :
  forall now,
  0 <= G -> 0 <= O ->
  reachable q -> len q = 0 -> Forall no_producer idle ->
  Forall (fun c => gap c <= G /\ oversleep c <= O) idle -> g <= G ->
  (forall tm, timer = Some tm ->
     now + (Z.of_nat (length idle) + 1) * (G + Z.max 0 interval + O)
       < fires_at tm) ->
  run ops q = Ret (q2, es) -> contents q2 = x :: l ->
  exists q' t,
    poll timer interval (idle ++ mkCycle g o ops :: rest) now
      (set_mut q true) = Ret (q', x, t) /\
    contents q' = l.
Proof.
  intros now HG HO Hq Hz Hquiet Hbound Hg Htm Hrun Hx.
  pose proof (reachable_mut _ Hq) as Hm. revert now Htm.
  induction Hquiet as [|c idle Hc _ IH]; intros now Htm; cbn [app].
  - rewrite poll_cycle by done. cbn [others gap oversleep length] in *.
    assert (match timer with
            | Some tm => readable tm (now + g)
            | None => false
            end = false) as ->.
    { destruct timer as [tm|]; [|done]. specialize (Htm tm eq_refl).
      apply Z.leb_gt. lia. }
    unfold interfere. rewrite Hrun. mred.
    pose proof (run_reachable _ _ _ _ Hq Hrun) as Hq2.
    destruct (reachable_rep _ Hq2) as [l2 Hl2].
    rewrite (rep_contents _ _ Hl2) in Hx. subst l2.
    rewrite lock_unlocked by eauto using rep_mut. mred.
    rewrite poll_ready; [|eauto using rep_mut|by rewrite (rep_len _ _ Hl2)].
    destruct (rep_Dequeue_cons _ _ _ Hl2) as (q' & -> & _ & Hq' & _).
    eexists _, _. split; [reflexivity|]. by apply rep_contents.
  - inversion_clear Hbound as [|? ? [Hgap Hover] Hbounds].
    rewrite poll_cycle by done.
    assert (0 <= Z.of_nat (length idle) * (G + Z.max 0 interval + O)) as Hk
      by (apply Z.mul_nonneg_nonneg; lia).
    assert (match timer with
            | Some tm => readable tm (now + gap c)
            | None => false
            end = false) as ->.
    { destruct timer as [tm|]; [|done]. specialize (Htm tm eq_refl).
      apply Z.leb_gt. cbn [length] in Htm. lia. }
    rewrite quiet_interfere by done. mred.
    rewrite lock_unlocked by done. mred.
    apply IH; [done|]. intros tm Htimer. specialize (Htm tm Htimer).
    cbn [length] in Htm. destruct (Z.ltb_spec 0 interval); lia.
Qed.

(** An item that arrives well within the timeout is delivered.  If each of
    the idle poll cycles before the item shows up, and the cycle in which
    it does, takes at most [G + max 0 interval + O], and all of them
    together take less than the timeout, the blocking dequeue does not
    time out: it returns the oldest item the other goroutines left in the
    queue (which is nil if that is what was enqueued) and removes it. *)
Theorem blocking_delivers_before_deadline (T interval latency now G O : Z)
    (idle rest : list cycle) (g o : Z) (ops : list op)
    (q q2 : Queue) (es : list event) (x : iface) (l : list iface) :
  0 <= latency -> 0 <= G -> 0 <= O ->
  reachable q -> len q = 0 -> Forall no_producer idle ->
  Forall (fun c => gap c <= G /\ oversleep c <= O) idle -> g <= G ->
  (Z.of_nat (length idle) + 1) * (G + Z.max 0 interval + O) < T ->
  run ops q = Ret (q2, es) -> contents q2 = x :: l ->
  exists q' t,
    DequeueBlocking T interval latency
      (idle ++ mkCycle g o ops :: rest) now q =
    Ret (q', x, t) /\ contents q' = l.
Proof.
  intros Hlat HG HO Hq Hz Hquiet Hbound Hg HT Hrun Hx.
  unfold DequeueBlocking.
  rewrite lock_unlocked by auto using reachable_mut. mred. cbv zeta.
  apply (poll_delivers _ interval G O idle rest g o ops q q2 es x l now);
    try done.
  intros tm Htm. destruct (0 <? T); [|done].
  injection Htm as <-. cbn. lia.
Qed.

Section Storage.

(** What the language promises of [append]: the new backing array is
    large enough for the result. *)
Hypothesis growslice_fits : forall (T : Type) (c n : Z), n <= growslice T c n.

Lemma Enqueue_storage q x q' :
  Enqueue q x = Ret q' ->
  slen (items q) <= cap (items q) ->
  slen (items q') <= cap (items q') /\ 1 <= cap (items q') /\
  cap (items q) <= cap (items q').
Proof.
  destruct q as [C [l k] n m r y w'].
  unfold Enqueue, Lock, Unlock, newSlice, make1, append, store, index, slen.
  cbn. destruct m; cbn; [done|].
  destruct ((Z.of_nat (length l) =? 0) || (Z.of_nat (length l) =? w')); cbn.
  - destruct (((if C =? 0 then 1 else C) <? 1) ||
               (max_cap iface <? (if C =? 0 then 1 else C))); cbn; [done|].
    intros [= <-] Hk. cbn. rewrite length_app. cbn [length].
    destruct (Z.ltb_spec (Z.of_nat (length l)) k); [lia|].
    pose proof (growslice_fits (slice iface) k (Z.of_nat (length l) + 1)).
    lia.
  - destruct (Z.leb_spec 0 w'), (Z.ltb_spec w' (Z.of_nat (length l)));
      cbn; try done.
    destruct (l !! Z.to_nat w'); cbn; [|done].
    intros [= <-] Hk. cbn. rewrite length_insert. lia.
Qed.

Lemma dequeue_storage q q' r :
  dequeue q = Ret (q', r) ->
  slen (items q') <= slen (items q) /\ cap (items q') = cap (items q).
Proof.
  destruct q as [C [l k] n m r0 y w'].
  unfold dequeue, store, index, truncate, slen. cbn.
  destruct (Z.of_nat (length l) =? 0); cbn; [by intros [= <- _]|].
  destruct ((0 <=? y) && (y <? Z.of_nat (length l))); cbn; [|done].
  destruct (l !! Z.to_nat y) as [c|]; cbn; [|done].
  destruct (Z.of_nat (length (elems c)) =? 0); cbn; [by intros [= <- _]|].
  destruct ((0 <=? r0) && (r0 <? Z.of_nat (length (elems c)))); cbn; [|done].
  destruct (elems c !! Z.to_nat r0); cbn; [|done].
  destruct (Z.of_nat (length (elems c)) =? r0 + 1); cbn.
  - destruct (n - 1 =? 0); intros [= <- _]; cbn;
      rewrite ?length_insert; lia.
  - destruct (w' =? y); [destruct (0 <? w')|]; by intros [= <- _].
Qed.

Lemma Dequeue_storage q q' val :
  Dequeue q = Ret (q', val) ->
  slen (items q') <= slen (items q) /\ cap (items q') = cap (items q).
Proof.
  unfold Dequeue, Lock, Unlock. destruct (mut q); cbn; [done|].
  destruct (dequeue (set_mut q true)) as [[q1 [v ok]]| | |] eqn:E;
    cbn; try done.
  apply dequeue_storage in E. destruct (mut q1); cbn; [|done].
  by intros [= <- _].
Qed.

Lemma run_storage ops : forall q q' es,
  run ops q = Ret (q', es) ->
  slen (items q) <= cap (items q) ->
  slen (items q') <= cap (items q') /\ cap (items q) <= cap (items q') /\
  (enqueued ops <> [] -> 1 <= cap (items q')).
Proof.
  induction ops as [|o ops IH]; intros q q' es; cbn.
  - intros [= <- _] Hk. split_and!; [done|lia|done].
  - destruct (run_op o q) as [[q1 e]| | |] eqn:E; cbn; try done.
    destruct (run ops q1) as [[q2 es2]| | |] eqn:E2; cbn; try done.
    intros [= <- _] Hk. specialize (IH _ _ _ E2).
    destruct o as [item| |]; cbn in E.
    + destruct (Enqueue q item) as [qe| | |] eqn:Ee; simplify_eq/=.
      destruct (Enqueue_storage _ _ _ Ee Hk) as (Hk1 & H1 & Hmono).
      destruct (IH Hk1) as (? & ? & _). split_and!; [done|lia|lia].
    + destruct (Dequeue q) as [[qd v]| | |] eqn:Ed; simplify_eq/=.
      destruct (Dequeue_storage _ _ _ Ed) as [Hl Hc].
      destruct IH as (? & ? & ?); [lia|]. split_and!; [done|lia|done].
    + unfold Len, Lock, Unlock in E. destruct (mut q); simplify_eq/=.
      destruct IH as (? & ? & ?); [done|]. split_and!; [done|lia|done].
Qed.

(** Once an item has been enqueued the chunk sequence owns storage for
    good: no later state, drained or not, is the creation-time value. *)
Theorem storage_is_kept (c : Z) (ops : list op) (q : Queue) (es : list event) :
  run ops (New c) = Ret (q, es) ->
  enqueued ops <> [] ->
  1 <= cap (items q) /\ q <> New c.
Proof.
  intros E Hne. destruct (run_storage _ _ _ _ E) as (_ & _ & Hcap); [done|].
  specialize (Hcap Hne). split; [done|].
  intros ->. cbn in Hcap. lia.
Qed.

Lemma Enqueue_chunks q item q' :
  Enqueue q item = Ret q' ->
  Forall (fun c => slen c <= cap c /\ 1 <= cap c) (elems (items q)) ->
  Forall (fun c => slen c <= cap c /\ 1 <= cap c) (elems (items q')).
Proof.
  destruct q as [C0 [l k] n m r y w'].
  unfold Enqueue, Lock, Unlock, newSlice, make1, append, store, index, slen.
  cbn. destruct m; cbn; [done|].
  destruct ((Z.of_nat (length l) =? 0) || (Z.of_nat (length l) =? w')); cbn.
  - destruct (Z.ltb_spec (if C0 =? 0 then 1 else C0) 1); cbn; [done|].
    destruct (max_cap iface <? (if C0 =? 0 then 1 else C0)); cbn; [done|].
    intros [= <-] Hall. cbn. apply Forall_app. split; [done|].
    apply Forall_singleton. cbn. lia.
  - destruct ((0 <=? w') && (w' <? Z.of_nat (length l))); cbn; [|done].
    destruct (l !! Z.to_nat w') as [c|] eqn:Hc; cbn; [|done].
    intros [= <-] Hall. cbn. apply Forall_insert; [done|].
    destruct (Forall_lookup_1 _ _ _ _ Hall Hc) as [Hlen Hcap].
    cbn. rewrite length_app. cbn [length].
    destruct (Z.ltb_spec (Z.of_nat (length (elems c))) (cap c)); [lia|].
    pose proof (growslice_fits iface (cap c)
                  (Z.of_nat (length (elems c)) + 1)).
    lia.
Qed.

Lemma dequeue_chunks q q' r :
  dequeue q = Ret (q', r) ->
  Forall (fun c => slen c <= cap c /\ 1 <= cap c) (elems (items q)) ->
  Forall (fun c => slen c <= cap c /\ 1 <= cap c) (elems (items q')).
Proof.
  destruct q as [C0 [l k] n m r0 y w'].
  unfold dequeue, store, index, truncate, slen. cbn.
  destruct (Z.of_nat (length l) =? 0); cbn; [by intros [= <- _]|].
  destruct ((0 <=? y) && (y <? Z.of_nat (length l))); cbn; [|done].
  destruct (l !! Z.to_nat y) as [c|] eqn:Hc; cbn; [|done].
  destruct (Z.of_nat (length (elems c)) =? 0); cbn; [by intros [= <- _]|].
  destruct ((0 <=? r0) && (r0 <? Z.of_nat (length (elems c)))); cbn; [|done].
  destruct (elems c !! Z.to_nat r0); cbn; [|done].
  destruct (Z.of_nat (length (elems c)) =? r0 + 1); cbn.
  - destruct (n - 1 =? 0); intros [= <- _] Hall; cbn; [done|].
    apply Forall_insert; [done|].
    destruct (Forall_lookup_1 _ _ _ _ Hall Hc) as [Hlen Hcap]. cbn. lia.
  - destruct (w' =? y); [destruct (0 <? w')|]; by intros [= <- _].
Qed.

Lemma reachable_chunks q :
  reachable q ->
  Forall (fun c => slen c <= cap c /\ 1 <= cap c) (elems (items q)).
Proof.
  induction 1 as [c|q c Hq IH|q item q' Hq IH E|q q' val Hq IH E].
  - constructor.
  - by destruct q.
  - by eapply Enqueue_chunks.
  - revert E. unfold Dequeue, Lock, Unlock. destruct (mut q); cbn; [done|].
    destruct (dequeue (set_mut q true)) as [[q1 [v ok]]| | |] eqn:Ed;
      cbn; try done.
    apply dequeue_chunks in Ed; [|by destruct q].
    destruct (mut q1); cbn; [|done]. by intros [= <- _].
Qed.

Lemma dequeue_caps q q' r :
  dequeue q = Ret (q', r) ->
  cap <$> elems (items q') = cap <$> elems (items q) \/
  len q = 1 /\ elems (items q') = [].
Proof.
  destruct q as [C0 [l k] n m r0 y w'].
  unfold dequeue, store, index, truncate, slen. cbn.
  destruct (Z.of_nat (length l) =? 0); cbn; [intros [= <- _]; by left|].
  destruct ((0 <=? y) && (y <? Z.of_nat (length l))); cbn; [|done].
  destruct (l !! Z.to_nat y) as [c|] eqn:Hc; cbn; [|done].
  destruct (Z.of_nat (length (elems c)) =? 0); cbn;
    [intros [= <- _]; by left|].
  destruct ((0 <=? r0) && (r0 <? Z.of_nat (length (elems c)))); cbn; [|done].
  destruct (elems c !! Z.to_nat r0); cbn; [|done].
  destruct (Z.of_nat (length (elems c)) =? r0 + 1); cbn.
  - destruct (Z.eqb_spec (n - 1) 0); intros [= <- _]; cbn.
    + right. split; [lia|done].
    + left. rewrite list_fmap_insert. cbn. apply list_insert_id.
      by rewrite list_lookup_fmap, Hc.
  - destruct (w' =? y); [destruct (0 <? w')|]; intros [= <- _]; by left.
Qed.

(** What happens to the chunks' storage.  Under any growth policy of
    [append] that fits its result, every chunk of a reachable queue has
    room for at least one item and for the items it holds.  A [Dequeue]
    that removes the only stored item drops every chunk, with its
    storage, and keeps only the backing array of the chunk sequence; any
    other [Dequeue] leaves the sequence of chunk capacities as it was, so
    a chunk it drains is truncated in place and stays for reuse. *)
Theorem chunk_storage (q : Queue) :
  reachable q ->
  Forall (fun c => slen c <= cap c /\ 1 <= cap c) (elems (items q)) /\
  forall q' val, Dequeue q = Ret (q', val) ->
    cap (items q') = cap (items q) /\
    if len q =? 1 then elems (items q') = []
    else cap <$> elems (items q') = cap <$> elems (items q).
Proof.
  intros Hq. split; [by apply reachable_chunks|].
  intros q' val E. split; [by destruct (Dequeue_storage _ _ _ E)|].
  destruct (Z.eqb_spec (len q) 1) as [H1|H1].
  - destruct (reachable_rep _ Hq) as [l Hl].
    rewrite (rep_len _ _ Hl) in H1.
    destruct l as [|x [|x' l]]; cbn [length] in H1; try lia.
    destruct (rep_Dequeue_cons _ _ _ Hl) as (q1 & E1 & _ & Hq1 & _).
    rewrite E in E1. injection E1 as -> _.
    by destruct (rep_nil _ Hq1) as (C & k & ->).
  - revert E. unfold Dequeue, Lock, Unlock. destruct (mut q); cbn; [done|].
    destruct (dequeue (set_mut q true)) as [[q1 [v ok]]| | |] eqn:Ed;
      cbn; try done.
    apply dequeue_caps in Ed. destruct (mut q1); cbn; [|done].
    intros [= <- _]. cbn.
    destruct Ed as [Ed|[Hlen _]]; [by destruct q|by destruct q].
Qed.

End Storage.

End Conq.

Arguments mkQueue {V}.
Arguments Capacity {V} q.
Arguments items {V} q.
Arguments len {V} q.
Arguments mut {V} q.
Arguments rx {V} q.
Arguments ry {V} q.
Arguments w {V} q.
Arguments New {V}.
Arguments enqueued {V} ops.
Arguments dequeued {V} es.
Arguments Enqueue {V} growslice max_cap q item.
Arguments Dequeue {V} q.
Arguments dequeue {V} q.
Arguments Len {V} q.
Arguments OpEnqueue {V} item.
Arguments OpDequeue {V}.
Arguments OpLen {V}.
Arguments EvEnqueue {V}.
Arguments EvDequeue {V} val ok.
Arguments EvLen {V} n.
Arguments run {V} growslice max_cap ops q.
Arguments reachable {V} growslice max_cap q.
Arguments same_layout {V} q1 q2.
Arguments succeeds {V} q.
Arguments mkCycle {V} gap oversleep others.
Arguments DequeueBlocking {V} growslice max_cap timeout interval latency sched now q.
Arguments no_producer {V} c.
Arguments ticking {V} c.
Arguments contents {V} q.
Arguments mkCall {V} call_timeout call_interval call_latency call_sched.
Arguments DequeueBlocking_each {V} growslice max_cap calls now q.
Arguments set_Capacity {V} q v.
Arguments set_mut {V} q v.

(** ** The theorems at concrete inputs

    Items are integers, [append] grows by [doubling], [make] accepts
    capacities up to [limit44], the configured capacity is 3 as in the
    package's tests. *)

Lemma reachable_one :
  reachable doubling limit44 (mkQueue 3 (Slice [Slice [Some 1] 3] 1) 1 false 0 0 0).
Proof.
  apply (reach_Enqueue Z doubling limit44 (New 3) (Some 1)); [apply reach_New|].
  reflexivity.
Defined.

Lemma reachable_two :
  reachable doubling limit44
    (mkQueue 3 (Slice [Slice [Some 1; Some 2] 3] 1) 2 false 0 0 0).
Proof.
  apply (reach_Enqueue Z doubling limit44 _ (Some 2) _ reachable_one). reflexivity.
Defined.

Lemma reachable_drained :
  reachable doubling limit44 (mkQueue (V:=Z) 3 (Slice [] 1) 0 false 0 0 0).
Proof.
  apply (reach_Dequeue Z doubling limit44 _ _ (Some 1) reachable_one). reflexivity.
Defined.

Lemma fifo_order_witness :
  0 <= 3 /\ Z.max 1 3 <= limit44 (option Z) /\
  reachable doubling limit44 (New (V:=Z) 3) /\
  exists q,
    run doubling limit44
      (map OpEnqueue [Some 1; Some 2; Some 3] ++ replicate 3 OpDequeue)
      (New 3) =
    Ret (q, replicate 3 EvEnqueue ++
            map (fun x => EvDequeue x true) [Some 1; Some 2; Some 3]).
Proof.
  assert (Z.max 1 3 <= limit44 (option Z)) as Hlimit
    by (unfold limit44; lia).
  split; [lia|]. split; [exact Hlimit|]. split; [apply reach_New|].
  destruct (fifo_order Z doubling limit44 3 [Some 1; Some 2; Some 3])
    as (_ & Hfifo & _ & Htotal).
  destruct (Htotal ltac:(lia) Hlimit (New 3) (reach_New Z doubling limit44 3)
              eq_refl
              (map OpEnqueue [Some 1; Some 2; Some 3] ++
               replicate 3 OpDequeue))
    as (q & es & E).
  exists q. rewrite E. f_equal. f_equal. exact (Hfifo q es E).
Defined.

Lemma length_accounting_witness :
  0 <= 3 /\ Z.max 1 3 <= limit44 (option Z) /\
  exists q es,
    run doubling limit44
      [OpEnqueue (Some 1); OpEnqueue (Some 2); OpDequeue; OpLen; OpDequeue;
       OpDequeue; OpEnqueue (Some 3)] (New 3) = Ret (q, es) /\
    (length (dequeued es) <= 3)%nat /\
    len q = 3 - Z.of_nat (length (dequeued es)) /\
    Len q = Ret (q, 3 - Z.of_nat (length (dequeued es))).
Proof.
  assert (Z.max 1 3 <= limit44 (option Z)) as Hlimit
    by (unfold limit44; lia).
  split; [lia|]. split; [exact Hlimit|].
  destruct (length_accounting Z doubling limit44 3
              [OpEnqueue (Some 1); OpEnqueue (Some 2); OpDequeue; OpLen;
               OpDequeue; OpDequeue; OpEnqueue (Some 3)])
    as [Hacc Htotal].
  destruct (Htotal ltac:(lia) Hlimit) as (q & es & E).
  exists q, es. split; [exact E|]. exact (Hacc q es E).
Defined.

Lemma return_to_pristine_witness :
  let q := mkQueue (V:=Z) 3 (Slice [] 1) 0 false 0 0 0 in
  reachable doubling limit44 q /\ len q = 0 /\
  same_layout q (New 3) /\
  forall ops, snd <$> run doubling limit44 ops q = snd <$> run doubling limit44 ops (New 3).
Proof.
  cbv zeta. split; [apply reachable_drained|]. split; [reflexivity|].
  apply (return_to_pristine Z doubling limit44 _ reachable_drained). reflexivity.
Defined.

Lemma drained_keeps_storage :
  run doubling limit44 [OpEnqueue (Some 1); OpDequeue] (New 3) =
    Ret (mkQueue 3 (Slice [] 1) 0 false 0 0 0,
         [EvEnqueue; EvDequeue (Some 1) true]) /\
  len (mkQueue (V:=Z) 3 (Slice [] 1) 0 false 0 0 0) = 0 /\
  mkQueue (V:=Z) 3 (Slice [] 1) 0 false 0 0 0 <> New 3.
Proof. split; [reflexivity|]. split; [reflexivity|]. discriminate. Qed.

Lemma empty_contract_witness :
  reachable doubling limit44 (New (V:=Z) 3) /\ len (New (V:=Z) 3) = 0 /\
  Dequeue (New (V:=Z) 3) = Ret (New 3, None) /\
  Len (New (V:=Z) 3) = Ret (New 3, 0).
Proof.
  split; [apply reach_New|]. split; [reflexivity|].
  apply (empty_contract Z doubling limit44 (New 3)); [apply reach_New|reflexivity].
Defined.

Lemma enqueue_algorithm_witness :
  let q := mkQueue 3 (Slice [Slice [Some 1] 3] 1) 1 false 0 0 0 in
  reachable doubling limit44 q /\ 0 <= Capacity q /\
  Z.max 1 (Capacity q) <= limit44 (option Z) /\
  exists q', Enqueue doubling limit44 q (Some 2) = Ret q' /\ len q' = len q + 1.
Proof.
  cbv zeta. split; [apply reachable_one|]. split; [cbn; lia|].
  split; [unfold limit44; cbn; lia|].
  destruct (enqueue_algorithm Z doubling limit44 _ (Some 2) reachable_one)
    as (q' & E & Hlen & _); [cbn; lia|unfold limit44; cbn; lia|].
  exists q'. split; [exact E|exact Hlen].
Defined.

Lemma enqueue_panics_over_limit :
  reachable doubling limit44 (New (V:=Z) (2 ^ 45)) /\
  0 <= Capacity (New (V:=Z) (2 ^ 45)) /\
  Enqueue doubling limit44 (New (2 ^ 45)) (Some 1) = Panic.
Proof.
  split; [apply reach_New|]. split; [cbn; lia|]. vm_compute. reflexivity.
Qed.

Lemma mid_drain_redirect_witness :
  let q := mkQueue 3 (Slice [Slice [Some 1; Some 2] 3] 1) 2 true 0 0 0 in
  let q' := mkQueue 3 (Slice [Slice [Some 1; Some 2] 3] 1) 1 true 1 0 1 in
  dequeue q = Ret (q', (Some 1, true)) /\
  exists c,
    index (items q) (ry q) = Ret c /\ index c (rx q) = Ret (Some 1) /\
    if slen c =? rx q + 1 then
      rx q' = 0 /\ (if len q - 1 =? 0 then w q' = 0 else w q' = w q)
    else
      rx q' = rx q + 1 /\ ry q' = ry q /\ items q' = items q /\
      w q' = (if w q =? ry q then (if w q =? 0 then ry q + 1 else 0)
              else w q) /\
      (w q = ry q -> w q = 0 -> forall item,
         match Enqueue doubling limit44 (set_mut q' false) item with
         | Ret q'' =>
             if slen (items q) =? ry q + 1 then
               items q'' =
                 append doubling (items q)
                   (Slice [item] (Z.max 1 (Capacity q)))
             else
               exists c1,
                 index (items q) (ry q + 1) = Ret c1 /\
                 items q'' =
                   Slice (<[Z.to_nat (ry q + 1) := append doubling c1 item]>
                            (elems (items q)))
                         (cap (items q))
         | Panic =>
             slen (items q) = ry q + 1 /\
             (Capacity q < 0 \/ limit44 (option Z) < Z.max 1 (Capacity q))
         | _ => False
         end).
Proof.
  cbv zeta. split; [reflexivity|].
  apply (mid_drain_redirect Z doubling limit44
           (mkQueue 3 (Slice [Slice [Some 1; Some 2] 3] 1) 2 true 0 0 0)
           (mkQueue 3 (Slice [Slice [Some 1; Some 2] 3] 1) 1 true 1 0 1)
           (Some 1) true).
  reflexivity.
Defined.

Lemma redirect_to_existing_chunk :
  let q :=
    mkQueue 3 (Slice [Slice [Some 6; Some 7] 3; Slice [] 3] 2) 2 false 0 0 0 in
  let q' :=
    mkQueue 3 (Slice [Slice [Some 6; Some 7] 3; Slice [] 3] 2) 1 false 1 0 1 in
  let q'' :=
    mkQueue 3 (Slice [Slice [Some 6; Some 7] 3; Slice [Some 8] 3] 2)
      2 false 1 0 1 in
  reachable doubling limit44 q /\
  Dequeue q = Ret (q', Some 6) /\
  rx q' = rx q + 1 /\ w q = ry q /\ w q' = ry q + 1 /\
  index (items q') (w q') = Ret (Slice [] 3) /\
  Enqueue doubling limit44 q' (Some 8) = Ret q'' /\
  slen (items q'') = slen (items q').
Proof.
  cbv zeta. split; [|vm_compute; repeat split].
  apply (run_reachable Z doubling limit44
           [OpEnqueue (Some 1); OpEnqueue (Some 2); OpDequeue;
            OpEnqueue (Some 3); OpDequeue; OpEnqueue (Some 4); OpDequeue;
            OpEnqueue (Some 6); OpEnqueue (Some 7); OpDequeue]
           (New 3) _
           [EvEnqueue; EvEnqueue; EvDequeue (Some 1) true; EvEnqueue;
            EvDequeue (Some 2) true; EvEnqueue; EvDequeue (Some 3) true;
            EvEnqueue; EvEnqueue; EvDequeue (Some 4) true]);
    [apply reach_New|reflexivity].
Qed.

Lemma blocking_refines_dequeue_witness :
  let q := mkQueue 3 (Slice [Slice [Some 1; Some 2] 3] 1) 2 false 0 0 0 in
  0 < len q /\
  fst <$> DequeueBlocking doubling limit44 5 2 0 [] 10 q = Dequeue q.
Proof.
  cbv zeta. split; [cbn; lia|].
  apply (blocking_refines_dequeue Z doubling limit44 5 2 0 10 []). cbn. lia.
Defined.

Lemma blocking_timeout_bound_witness :
  0 < 5 /\ 0 <= 1 /\ reachable doubling limit44 (New (V:=Z) 3) /\
  len (New (V:=Z) 3) = 0 /\
  exists t,
    DequeueBlocking (V:=Z) doubling limit44 5 2 1 (replicate 6 (mkCycle 1 0 [])) 10
      (New 3) = Ret (New 3, None, t) /\
    10 + 5 <= t.
Proof.
  split; [lia|]. split; [lia|]. split; [apply reach_New|].
  split; [reflexivity|].
  destruct (blocking_timeout_bound Z doubling limit44 5 2 1 10 (New 3))
    as (_ & _ & Hret); [lia|lia|apply reach_New|reflexivity|].
  apply Hret.
  - repeat constructor.
  - repeat constructor; cbn; lia.
  - cbn. lia.
Defined.

Lemma two_chunk_bound_witness :
  let q := mkQueue 3 (Slice [Slice [Some 1; Some 2] 3] 1) 2 false 0 0 0 in
  reachable doubling limit44 q /\
  (length (elems (items q)) <= 2)%nat /\
  (w q = 0 \/ w q = 1) /\ (ry q = 0 \/ ry q = 1).
Proof.
  cbv zeta. split; [apply reachable_two|].
  apply (two_chunk_bound Z doubling limit44 _ reachable_two).
Defined.

Lemma nonempty_success_witness :
  let q := mkQueue 3 (Slice [Slice [Some 1; Some 2] 3] 1) 2 false 0 0 0 in
  reachable doubling limit44 q /\ (succeeds q = false <-> len q = 0).
Proof.
  cbv zeta. split; [apply reachable_two|].
  apply (nonempty_success Z doubling limit44 _ reachable_two).
Defined.

Lemma nil_item_dequeues_nil :
  reachable doubling limit44 (mkQueue (V:=Z) 3 (Slice [Slice [None] 3] 1) 1 false 0 0 0) /\
  0 < len (mkQueue (V:=Z) 3 (Slice [Slice [None] 3] 1) 1 false 0 0 0) /\
  Dequeue (mkQueue (V:=Z) 3 (Slice [Slice [None] 3] 1) 1 false 0 0 0) =
    Ret (mkQueue 3 (Slice [] 1) 0 false 0 0 0, None).
Proof.
  split; [|split; [reflexivity|reflexivity]].
  apply (reach_Enqueue Z doubling limit44 (New 3) None); [apply reach_New|reflexivity].
Qed.

Lemma doubling_fits (T : Type) (c n : Z) : n <= doubling T c n.
Proof. unfold doubling. destruct (Z.ltb_spec (2 * c) n); lia. Defined.

Lemma calls_return_witness :
  let q := mkQueue 3 (Slice [Slice [Some 1; Some 2] 3] 1) 2 false 0 0 0 in
  reachable doubling limit44 q /\ 0 <= Capacity q /\
  Z.max 1 (Capacity q) <= limit44 (option Z) /\
  exists q' es,
    run doubling limit44 [OpDequeue; OpEnqueue (Some 9); OpLen] q =
      Ret (q', es) /\
    reachable doubling limit44 q'.
Proof.
  cbv zeta. split; [apply reachable_two|]. split; [cbn; lia|].
  split; [unfold limit44; cbn; lia|].
  apply (calls_return Z doubling limit44 _ _ reachable_two);
    [cbn; lia|unfold limit44; cbn; lia].
Defined.

Lemma blocking_waits_forever_witness :
  -1 <= 0 /\
  reachable doubling limit44 (New (V:=Z) 3) /\ len (New (V:=Z) 3) = 0 /\
  Forall no_producer (replicate 4 (mkCycle (V:=Z) 1 0 [OpDequeue])) /\
  DequeueBlocking doubling limit44 (-1) 2 0
    (replicate 4 (mkCycle (V:=Z) 1 0 [OpDequeue])) 10 (New 3) = Pending.
Proof.
  assert (Forall no_producer (replicate 4 (mkCycle (V:=Z) 1 0 [OpDequeue])))
    as Hquiet by (repeat constructor).
  split; [lia|].
  split; [apply reach_New|]. split; [reflexivity|]. split; [exact Hquiet|].
  apply (blocking_waits_forever Z doubling limit44 (-1) 2 0 10 _ (New 3));
    [lia|apply reach_New|reflexivity|exact Hquiet].
Defined.

Lemma blocking_wakes_on_enqueue_witness :
  0 <= 0 /\
  reachable doubling limit44 (New (V:=Z) 3) /\ len (New (V:=Z) 3) = 0 /\
  Forall no_producer [mkCycle (V:=Z) 1 0 []] /\
  run doubling limit44 [OpEnqueue (Some 7); OpEnqueue (Some 8)] (New 3) =
    Ret (mkQueue 3 (Slice [Slice [Some 7; Some 8] 3] 1) 2 false 0 0 0,
         [EvEnqueue; EvEnqueue]) /\
  contents (mkQueue 3 (Slice [Slice [Some 7; Some 8] 3] 1) 2 false 0 0 0) =
    [Some 7; Some 8] /\
  exists q' t,
    DequeueBlocking doubling limit44 0 2 0
      ([mkCycle 1 0 []] ++
       mkCycle 1 0 [OpEnqueue (Some 7); OpEnqueue (Some 8)] :: []) 10 (New 3) =
    Ret (q', Some 7, t) /\ contents q' = [Some 8].
Proof.
  assert (Forall no_producer [mkCycle (V:=Z) 1 0 []]) as Hquiet
    by (repeat constructor).
  split; [lia|].
  split; [apply reach_New|]. split; [reflexivity|]. split; [exact Hquiet|].
  split; [reflexivity|]. split; [reflexivity|].
  apply (blocking_wakes_on_enqueue Z doubling limit44 0 2 0 10 _ [] 1 0
           [OpEnqueue (Some 7); OpEnqueue (Some 8)] (New 3)
           (mkQueue 3 (Slice [Slice [Some 7; Some 8] 3] 1) 2 false 0 0 0)
           [EvEnqueue; EvEnqueue] (Some 7) [Some 8]);
    [lia|apply reach_New|reflexivity|exact Hquiet|reflexivity|reflexivity].
Defined.

Lemma storage_is_kept_witness :
  (forall (T : Type) (c n : Z), n <= doubling T c n) /\
  run doubling limit44 [OpEnqueue (Some 1); OpDequeue] (New 3) =
    Ret (mkQueue 3 (Slice [] 1) 0 false 0 0 0,
         [EvEnqueue; EvDequeue (Some 1) true]) /\
  enqueued [OpEnqueue (Some 1); OpDequeue] <> [] /\
  1 <= cap (items (mkQueue (V:=Z) 3 (Slice [] 1) 0 false 0 0 0)) /\
  mkQueue (V:=Z) 3 (Slice [] 1) 0 false 0 0 0 <> New 3.
Proof.
  split; [exact doubling_fits|]. split; [reflexivity|].
  split; [discriminate|].
  apply (storage_is_kept Z doubling limit44 doubling_fits 3
           [OpEnqueue (Some 1); OpDequeue] _
           [EvEnqueue; EvDequeue (Some 1) true]);
    [reflexivity|discriminate].
Defined.

Lemma queue_refines_list_witness :
  let q := mkQueue 3 (Slice [Slice [Some 1; Some 2] 3] 1) 2 false 0 0 0 in
  reachable doubling limit44 q /\
  len q = Z.of_nat (length (contents q)) /\
  exists q', Dequeue q = Ret (q', Some 1) /\ contents q' = [Some 2].
Proof.
  cbv zeta. split; [apply reachable_two|].
  destruct (queue_refines_list Z doubling limit44 _ reachable_two) as (Hlen & _ & Hd).
  split; [exact Hlen|exact Hd].
Defined.

Lemma shared_chunk_unconsumed_witness :
  let q := mkQueue 3 (Slice [Slice [Some 1; Some 2] 3] 1) 2 false 0 0 0 in
  reachable doubling limit44 q /\ w q = ry q /\ rx q = 0.
Proof.
  cbv zeta. split; [apply reachable_two|]. split; [reflexivity|].
  apply (shared_chunk_unconsumed Z doubling limit44 _ reachable_two). reflexivity.
Defined.

Lemma enqueue_panics_exactly_witness :
  let q := set_Capacity (mkQueue (V:=Z) 3 (Slice [] 1) 0 false 0 0 0) (-1) in
  reachable doubling limit44 q /\
  Enqueue doubling limit44 q (Some 1) = Panic.
Proof.
  cbv zeta.
  assert (reachable doubling limit44
            (set_Capacity (mkQueue (V:=Z) 3 (Slice [] 1) 0 false 0 0 0) (-1)))
    as Hq by (apply reach_Capacity; exact reachable_drained).
  split; [exact Hq|].
  destruct (enqueue_panics_exactly Z doubling limit44 _ (Some 1) Hq)
    as [[_ Hpanic] _].
  apply Hpanic. split; [left; reflexivity|left; cbn; lia].
Defined.

Lemma calls_release_mutex_witness :
  let q := mkQueue 3 (Slice [Slice [Some 1; Some 2] 3] 1) 2 false 0 0 0 in
  let q' := mkQueue 3 (Slice [Slice [Some 1; Some 2] 3] 1) 1 false 1 0 1 in
  run doubling limit44 [OpDequeue; OpLen] q =
    Ret (q', [EvDequeue (Some 1) true; EvLen 1]) /\
  [OpDequeue (V:=Z); OpLen] <> [] /\
  mut q = false /\ mut q' = false /\ Capacity q' = Capacity q.
Proof.
  cbv zeta. split; [reflexivity|]. split; [discriminate|].
  apply (calls_release_mutex Z doubling limit44 [OpDequeue; OpLen] _ _
           [EvDequeue (Some 1) true; EvLen 1]);
    [reflexivity|discriminate].
Defined.

Lemma blocking_releases_mutex_witness :
  DequeueBlocking (V:=Z) doubling limit44 5 2 1 (replicate 6 (mkCycle 1 0 [])) 10
    (New 3) = Ret (New 3, None, 17) /\
  mut (New (V:=Z) 3) = false /\ Capacity (New (V:=Z) 3) = 3.
Proof.
  split; [reflexivity|].
  destruct (blocking_releases_mutex Z doubling limit44 5 2 1 10
              (replicate 6 (mkCycle 1 0 [])) (New 3) (New 3) None 17)
    as (Hm & _ & HC); [reflexivity|].
  split; [exact Hm|exact HC].
Defined.

Lemma blocking_is_safe_witness :
  let q := mkQueue 3 (Slice [Slice [Some 1; Some 2] 3] 1) 2 false 0 0 0 in
  reachable doubling limit44 q /\ 0 <= Capacity q /\
  Z.max 1 (Capacity q) <= limit44 (option Z) /\
  match
    DequeueBlocking doubling limit44 5 2 1
      [mkCycle 1 0 [OpEnqueue (Some 9)]] 10 q
  with
  | Ret (q', _, _) => reachable doubling limit44 q'
  | Pending => True
  | _ => False
  end.
Proof.
  cbv zeta. split; [apply reachable_two|]. split; [cbn; lia|].
  split; [unfold limit44; cbn; lia|].
  apply (blocking_is_safe Z doubling limit44 5 2 1 10 _ _ reachable_two);
    [cbn; lia|unfold limit44; cbn; lia].
Defined.

Lemma blocking_drains_in_order_witness :
  let q := mkQueue 3 (Slice [Slice [Some 1; Some 2] 3] 1) 2 false 0 0 0 in
  reachable doubling limit44 q /\
  length [mkCall (V:=Z) 0 0 0 []; mkCall 5 2 1 []] = length (contents q) /\
  exists q',
    DequeueBlocking_each doubling limit44 [mkCall 0 0 0 []; mkCall 5 2 1 []] 10 q =
      Ret (q', contents q, 10) /\
    len q' = 0.
Proof.
  cbv zeta. split; [apply reachable_two|]. split; [reflexivity|].
  apply (blocking_drains_in_order Z doubling limit44 _ 10 _ reachable_two).
  reflexivity.
Defined.

Lemma blocking_timeout_latency_witness :
  0 < 5 /\ 0 <= 1 /\ 0 <= 0 /\
  reachable doubling limit44 (New (V:=Z) 3) /\ len (New (V:=Z) 3) = 0 /\
  Forall no_producer (replicate 6 (mkCycle (V:=Z) 1 0 [])) /\
  Forall (fun c => gap Z c <= 1 /\ oversleep Z c <= 0)
    (replicate 6 (mkCycle (V:=Z) 1 0 [])) /\
  DequeueBlocking (V:=Z) doubling limit44 5 2 1 (replicate 6 (mkCycle 1 0 [])) 10
    (New 3) = Ret (New 3, None, 17) /\
  17 < 10 + 5 + 1 + Z.max 0 2 + 0 + 1.
Proof.
  assert (Forall no_producer (replicate 6 (mkCycle (V:=Z) 1 0 [])))
    as Hquiet by (repeat constructor).
  assert (Forall (fun c => gap Z c <= 1 /\ oversleep Z c <= 0)
            (replicate 6 (mkCycle (V:=Z) 1 0 [])))
    as Hbound by (repeat constructor; cbn; lia).
  split; [lia|]. split; [lia|]. split; [lia|].
  split; [apply reach_New|]. split; [reflexivity|].
  split; [exact Hquiet|]. split; [exact Hbound|]. split; [reflexivity|].
  apply (blocking_timeout_latency Z doubling limit44 5 2 1 10 1 0
           (replicate 6 (mkCycle 1 0 [])) (New 3) (New 3) None 17);
    [lia|lia|lia|apply reach_New|reflexivity|exact Hquiet|exact Hbound|].
  reflexivity.
Defined.

Lemma chunk_storage_witness :
  let q :=
    mkQueue 3 (Slice [Slice [Some 1; Some 2] 3; Slice [Some 3] 3] 2)
      2 false 1 0 1 in
  let q' :=
    mkQueue 3 (Slice [Slice [] 3; Slice [Some 3] 3] 2) 1 false 0 1 1 in
  (forall (T : Type) (c n : Z), n <= doubling T c n) /\
  reachable doubling limit44 q /\
  Dequeue q = Ret (q', Some 2) /\
  cap <$> elems (items q') = cap <$> elems (items q).
Proof.
  cbv zeta.
  assert (reachable doubling limit44
            (mkQueue 3 (Slice [Slice [Some 1; Some 2] 3; Slice [Some 3] 3] 2)
               2 false 1 0 1)) as Hq.
  { apply (run_reachable Z doubling limit44
             [OpDequeue; OpEnqueue (Some 3)] _ _
             [EvDequeue (Some 1) true; EvEnqueue] reachable_two).
    reflexivity. }
  split; [exact doubling_fits|]. split; [exact Hq|]. split; [reflexivity|].
  destruct (chunk_storage Z doubling limit44 doubling_fits _ Hq) as [_ Hd].
  exact (proj2 (Hd _ (Some 2) eq_refl)).
Defined.

Lemma blocking_delivers_before_deadline_witness :
  0 <= 1 /\ 0 <= 1 /\ 0 <= 0 /\
  reachable doubling limit44 (New (V:=Z) 3) /\ len (New (V:=Z) 3) = 0 /\
  Forall no_producer [mkCycle (V:=Z) 1 0 []] /\
  Forall (fun c => gap Z c <= 1 /\ oversleep Z c <= 0) [mkCycle (V:=Z) 1 0 []] /\
  1 <= 1 /\
  (Z.of_nat (length [mkCycle (V:=Z) 1 0 []]) + 1) * (1 + Z.max 0 2 + 0) < 10 /\
  run doubling limit44 [OpEnqueue (Some 7)] (New 3) =
    Ret (mkQueue 3 (Slice [Slice [Some 7] 3] 1) 1 false 0 0 0, [EvEnqueue]) /\
  contents (mkQueue 3 (Slice [Slice [Some 7] 3] 1) 1 false 0 0 0) = [Some 7] /\
  exists q' t,
    DequeueBlocking doubling limit44 10 2 1
      ([mkCycle 1 0 []] ++ mkCycle 1 0 [OpEnqueue (Some 7)] :: []) 0 (New 3) =
    Ret (q', Some 7, t) /\ contents q' = [].
Proof.
  assert (Forall no_producer [mkCycle (V:=Z) 1 0 []]) as Hquiet
    by (repeat constructor).
  assert (Forall (fun c => gap Z c <= 1 /\ oversleep Z c <= 0)
            [mkCycle (V:=Z) 1 0 []])
    as Hbound by (repeat constructor; cbn; lia).
  split; [lia|]. split; [lia|]. split; [lia|].
  split; [apply reach_New|]. split; [reflexivity|].
  split; [exact Hquiet|]. split; [exact Hbound|]. split; [lia|].
  split; [cbn; lia|]. split; [reflexivity|]. split; [reflexivity|].
  apply (blocking_delivers_before_deadline Z doubling limit44 10 2 1 0 1 0
           [mkCycle 1 0 []] [] 1 0 [OpEnqueue (Some 7)] (New 3)
           (mkQueue 3 (Slice [Slice [Some 7] 3] 1) 1 false 0 0 0)
           [EvEnqueue] (Some 7) []);
    [lia|lia|lia|apply reach_New|reflexivity|exact Hquiet|exact Hbound|lia
    |cbn; lia|reflexivity|reflexivity].
Defined.
